(** * vergesort: run-detecting hybrid sort (vergesort.h)

    A shallow embedding of [vergesort], [vergesort_detail::inplace_merge3]
    and [vergesort_detail::is_sorted_until].  The sorted range is a list,
    iterators are offsets from [first]; every call the body of a function
    makes to a collaborator ([pdqsort], [std::reverse],
    [std::inplace_merge], [inplace_merge3]) is logged together with the
    contents of the range just before the call. *)

From Stdlib Require Import ZArith Lia QArith Lqa.
From stdpp Require Import list sorting.

Close Scope Q_scope.

(** ** Comparators *)

(** A comparator as the C++ code uses it: [compare a b] means that [a]
    ranks strictly before [b]. *)
Class StrictWeakOrder {A : Type} (compare : A → A → bool) : Prop := {
  swo_irrefl : ∀ x, compare x x = false;
  swo_trans : ∀ x y z,
    compare x y = true → compare y z = true → compare x z = true;
  swo_incomparable_trans : ∀ x y z,
    compare x y = false → compare y x = false →
    compare y z = false → compare z y = false →
    compare x z = false ∧ compare z x = false
}.

(** [ordered compare x y]: [y] may follow [x] in a sorted range, that is
    [compare y x] is false. *)
Definition ordered {A : Type} (compare : A → A → bool) : relation A :=
  λ x y, compare y x = false.

(** ** Machine integers *)

(** Conversion of a [difference_type] value to [int] (32 bits, two's
    complement). *)
Definition to_int (z : Z) : Z := ((z + 2 ^ 31) mod 2 ^ 32 - 2 ^ 31)%Z.

(** Modelled from the spec: [pdqsort_detail::log2] of pdqsort.h, which is
    not among the sources.  The spec writes [log2(size)]; the quotient is
    stored in an [int], so this is the integer (floor) base-2 logarithm. *)
Definition log2 (n : Z) : Z := Z.log2 n.

(** The threshold as the specification words it,
    [size / log2(size) * 0.9], for a value [l] of [log2(size)]. *)
Definition spec_unstable_limit (size : Z) (l : Q) : Q :=
  (inject_Z size / l * (9 # 10))%Q.

(** ** Ranges of a list *)

(** The elements at offsets [b], ..., [e - 1]. *)
Definition slice {A : Type} (b e : nat) (a : list A) : list A :=
  take (e - b) (drop b a).

(** Replace the range [b, e) by [f] applied to it. *)
Definition splice {A : Type} (b e : nat) (f : list A → list A)
    (a : list A) : list A :=
  take b a ++ f (slice b e a) ++ drop e a.

(** [std::distance] on offsets, a [difference_type]. *)
Definition distance (i j : nat) : Z := (Z.of_nat j - Z.of_nat i)%Z.

(** ** Calls to collaborators *)

Inductive call : Type :=
  | Pdqsort (b e : nat)
  | Reverse (b e : nat)
  | InplaceMerge (first middle last : nat)
  | InplaceMerge3 (first middle1 middle2 last : nat).

Section vergesort.
Context {A : Type}.

(** The log: each call with the range contents just before it. *)
Definition trace : Type := list (call * list A).

(** The range and the log of the calls made so far. *)
Definition mem : Type := (list A * trace)%type.

Definition exec (c : call) (f : list A → list A) (m : mem) : mem :=
  (f m.1, m.2 ++ [(c, m.1)]).

Definition calls_of (t : trace) : list call := t.*1.

Variable compare : A → A → bool.

(** Modelled from the spec: [pdqsort] of pdqsort.h, which is not among
    the sources.  The spec gives its contract only: it sorts the range
    it is given in place under the comparator.  It is a parameter here;
    the contract is [SubSort] below. *)
Variable pdqsort : (A → A → bool) → list A → list A.

(** *** std::inplace_merge and std::reverse *)

(** The stable merge of two sorted lists: an element of the second list
    is taken only when it ranks strictly before the head of the first. *)
Fixpoint merge (l1 : list A) : list A → list A :=
  fix merge_aux (l2 : list A) : list A :=
    match l1, l2 with
    | [], _ => l2
    | _, [] => l1
    | x1 :: l1', x2 :: l2' =>
        if compare x2 x1 then x2 :: merge_aux l2'
        else x1 :: merge l1' l2
    end.

(** [std::inplace_merge(first, middle, last, compare)].  The library
    requires [first, middle) and [middle, last) to be sorted under a
    strict weak order; on such parts its result is their stable merge. *)
Definition inplace_merge (first middle last : nat) (a : list A) : list A :=
  take first a ++ merge (slice first middle a) (slice middle last a)
    ++ drop last a.

Definition do_inplace_merge (first middle last : nat) : mem → mem :=
  exec (InplaceMerge first middle last) (inplace_merge first middle last).

(** [std::reverse(b, e)]. *)
Definition do_reverse (b e : nat) : mem → mem :=
  exec (Reverse b e) (splice b e reverse).

(** [pdqsort(b, e, compare)]. *)
Definition do_pdqsort (b e : nat) : mem → mem :=
  exec (Pdqsort b e) (splice b e (pdqsort compare)).

(** *** vergesort_detail::inplace_merge3 (lines 41-58) *)

Definition inplace_merge3 (first middle1 middle2 last : nat)
    (a : list A) : mem :=
  if (distance first middle1 <? distance middle2 last)%Z then
    do_inplace_merge first middle2 last
      (do_inplace_merge first middle1 middle2 (a, []))
  else
    do_inplace_merge first middle1 last
      (do_inplace_merge middle1 middle2 last (a, [])).

Definition do_inplace_merge3 (first middle1 middle2 last : nat)
    : mem → mem :=
  exec (InplaceMerge3 first middle1 middle2 last)
       (λ a, (inplace_merge3 first middle1 middle2 last a).1).

(** *** vergesort_detail::is_sorted_until (lines 61-77)

    [None] stands for a read outside the range or for exhausted fuel. *)

(** The [while (++next != last)] loop, entered with [next] already
    advanced. *)
Fixpoint is_sorted_until_loop (fuel : nat) (a : list A)
    (first next last : nat) : option nat :=
  if decide (next = last) then Some last
  else match fuel with
       | O => None
       | S fuel' =>
           x ← a !! next;
           y ← a !! first;
           if compare x y then Some next
           else is_sorted_until_loop fuel' a next (S next) last
       end.

Definition is_sorted_until (a : list A) (first last : nat) : option nat :=
  if decide (first = last) then Some last
  else is_sorted_until_loop (last - first) a first (S first) last.

(** *** The two run scans of the main loop (lines 109-114, 145-150)

    [test cur nxt] is the condition that ends the run. *)
Fixpoint scan_run (test : A → A → bool) (fuel : nat) (a : list A)
    (last current next : nat) : option (nat * nat) :=
  if decide (next = last) then Some (current, next)
  else match fuel with
       | O => None
       | S fuel' =>
           x ← a !! current;
           y ← a !! next;
           if test x y then Some (current, next)
           else scan_run test fuel' a last (S current) (S next)
       end.

(** The run ends when [compare] holds of the elements at [current] and
    [next], in that order. *)
Definition decreasing_range : nat → list A → nat → nat → nat →
    option (nat * nat) :=
  scan_run (λ cur nxt, compare cur nxt).

(** The run ends when [compare] holds of the elements at [next] and
    [current], in that order. *)
Definition increasing_range : nat → list A → nat → nat → nat →
    option (nat * nat) :=
  scan_run (λ cur nxt, compare nxt cur).

(** *** The main loop (lines 104-175) *)

(** The range with its log, and the local variables of [vergesort]. *)
Record state : Type := State {
  memory : mem;
  unstable_limit : Z;
  begin_unstable : nat;
  current : nat;
  next : nat
}.

Definition with_memory (m : mem) (s : state) : state :=
  State m (unstable_limit s) (begin_unstable s) (current s) (next s).

Definition with_begin_unstable (i : nat) (s : state) : state :=
  State (memory s) (unstable_limit s) i (current s) (next s).

Definition with_cursors (cur nxt : nat) (s : state) : state :=
  State (memory s) (unstable_limit s) (begin_unstable s) cur nxt.

(** Lines 117-135 ([descending = true]) and 153-169
    ([descending = false]): what is done with the run
    [begin_rng, next). *)
Definition dispatch (descending : bool) (first last begin_rng : nat)
    (s : state) : state :=
  if (distance begin_rng (next s) >? unstable_limit s)%Z then
    if negb (begin_unstable s =? last) then
      let m := do_pdqsort (begin_unstable s) begin_rng (memory s) in
      let m := if descending then do_reverse begin_rng (next s) m else m in
      let m :=
        do_inplace_merge3 first (begin_unstable s) begin_rng (next s) m in
      with_begin_unstable last (with_memory m s)
    else
      let m := memory s in
      let m := if descending then do_reverse begin_rng (next s) m else m in
      let m := do_inplace_merge first begin_rng (next s) m in
      with_memory m s
  else
    if begin_unstable s =? last then with_begin_unstable begin_rng s
    else s.

(** One half of the loop body: detect a run from [current], then
    dispatch on its length. *)
Definition run_phase (descending : bool) (first last : nat) (s : state)
    : option state :=
  let begin_rng := current s in
  '(cur, nxt) ← (if descending then decreasing_range else increasing_range)
                  last (memory s).1 last (current s) (next s);
  Some (dispatch descending first last begin_rng (with_cursors cur nxt s)).

(** The two increments between the halves of the loop body. *)
Definition advance (s : state) : state :=
  with_cursors (S (current s)) (S (next s)) s.

Fixpoint vergesort_loop (fuel : nat) (first last : nat) (s : state)
    : option state :=
  match fuel with
  | O => None
  | S fuel' =>
      s1 ← run_phase true first last s;
      if decide (next s1 = last) then Some s1
      else
        s2 ← run_phase false first last (advance s1);
        if decide (next s2 = last) then Some s2
        else vergesort_loop fuel' first last (advance s2)
  end.

(** Lines 177-181: the pending batch, if any, is sorted and merged. *)
Definition finish (first last : nat) (s : state) : mem :=
  if negb (begin_unstable s =? last) then
    do_inplace_merge first (begin_unstable s) last
      (do_pdqsort (begin_unstable s) last (memory s))
  else memory s.

(** Line 94: the quotient, stored in an [int]. *)
Definition unstable_limit_of (dist : Z) : Z :=
  to_int (dist / log2 dist)%Z.

(** Lines 93-102: the state in which the main loop is entered. *)
Definition initial_state (a : list A) (first last : nat) : option state :=
  let dist := distance first last in
  let unstable_limit := unstable_limit_of dist in
  let begin_unstable := last in
  p ← is_sorted_until a first last;
  let current := p - 1 in
  let next := current + 1 in
  Some (State (a, []) unstable_limit begin_unstable current next).

(** *** vergesort (lines 80-182) *)
Definition vergesort (a : list A) : option mem :=
  let first := O in
  let last := length a in
  let dist := distance first last in
  if (dist <? 80)%Z then Some (do_pdqsort first last (a, []))
  else
    s0 ← initial_state a first last;
    s ← vergesort_loop last first last s0;
    Some (finish first last s).

(** *** The points of an execution where a run detection starts

    [detection_point a descending s]: in the call of [vergesort] on [a],
    the main loop is about to detect a run from state [s], a descending
    one when [descending] holds. *)
Inductive detection_point (a : list A) : bool → state → Prop :=
  | detection_first s0 :
      (80 ≤ distance 0 (length a))%Z →
      initial_state a 0 (length a) = Some s0 →
      detection_point a true s0
  | detection_second s s1 :
      detection_point a true s →
      run_phase true 0 (length a) s = Some s1 →
      next s1 ≠ length a →
      detection_point a false (advance s1)
  | detection_again s s2 :
      detection_point a false s →
      run_phase false 0 (length a) s = Some s2 →
      next s2 ≠ length a →
      detection_point a true (advance s2).

(** The state in which the main loop is left. *)
Definition loop_exit (a : list A) (s' : state) : Prop :=
  ∃ descending s,
    detection_point a descending s ∧
    run_phase descending 0 (length a) s = Some s' ∧
    next s' = length a.

(** *** Invariants *)

(** What a call requires of the range it is made on: a valid range, and
    for a merge sorted parts, the first of them starting at [first]. *)
Definition call_pre (ca : call * list A) : Prop :=
  let R := ordered compare in
  let a := ca.2 in
  match ca.1 with
  | Pdqsort b e | Reverse b e => b ≤ e ∧ e ≤ length a
  | InplaceMerge first middle last =>
      first = 0 ∧ middle ≤ last ∧ last ≤ length a ∧
      Sorted R (slice 0 middle a) ∧ Sorted R (slice middle last a)
  | InplaceMerge3 first middle1 middle2 last =>
      first = 0 ∧ middle1 ≤ middle2 ∧ middle2 ≤ last ∧ last ≤ length a ∧
      Sorted R (slice 0 middle1 a) ∧ Sorted R (slice middle1 middle2 a) ∧
      Sorted R (slice middle2 last a)
  end.

(** The end of the prefix known to be sorted: the start of the pending
    batch, or [k] when there is none. *)
Definition sorted_end (last k : nat) (s : state) : nat :=
  if begin_unstable s =? last then k else begin_unstable s.

(** The part of the invariant that does not depend on the order: the
    range is a permutation of the input, the cursors are adjacent, the
    threshold is the one computed on entry and the marker is the
    sentinel or lies before [k]. *)
Record shape (a : list A) (k : nat) (s : state) : Prop := {
  shape_Permutation : (memory s).1 ≡ₚ a;
  shape_cursors : next s = S (current s);
  shape_next : next s ≤ length a;
  shape_limit : unstable_limit s = unstable_limit_of (distance 0 (length a));
  shape_marker : begin_unstable s = length a ∨ begin_unstable s < k
}.

(** The part that does: the prefix up to [sorted_end] is sorted and
    every call made so far met its requirements. *)
Record order (a : list A) (k : nat) (s : state) : Prop := {
  order_prefix :
    Sorted (ordered compare) (slice 0 (sorted_end (length a) k s) (memory s).1);
  order_calls : Forall call_pre (memory s).2
}.

End vergesort.

(** The merge of the two parts of [l] cut at [k]. *)
Definition merge_at {A : Type} (compare : A → A → bool) (k : nat)
    (l : list A) : list A :=
  merge compare (take k l) (drop k l).

(** The contract of the sub-sort: it returns a sorted permutation. *)
Class SubSort {A : Type} (compare : A → A → bool)
    (sort : (A → A → bool) → list A → list A) : Prop := {
  sub_sort_Permutation : ∀ l, sort compare l ≡ₚ l;
  sub_sort_Sorted : ∀ l, Sorted (ordered compare) (sort compare l)
}.

(** A sub-sort for concrete runs: insertion by merging. *)
Definition insertion_sort {A : Type} (compare : A → A → bool)
    (l : list A) : list A :=
  foldr (λ x acc, merge compare [x] acc) [] l.

(** ** Concrete inputs *)

(** Sortedness of a concrete list is decided by evaluation. *)
Global Instance ordered_dec {A : Type} (compare : A → A → bool) :
  RelDecision (ordered compare).
Proof. intros x y. unfold ordered. apply _. Defined.

(** An ascending half followed by a descending half. *)
Definition pipe_organ : list nat := seq 0 50 ++ reverse (seq 50 50).

(** A reverse-sorted range that starts with seventy equal elements. *)
Definition tied_descending : list nat := replicate 70 10 ++ reverse (seq 0 10).

(** A sorted prefix, six elements in short runs, a long descending run,
    a long ascending run and four elements in short runs: a batch is
    pending when the first long run is detected and again when the loop
    is left. *)
Definition mixed_runs : list nat :=
  seq 0 30 ++ [5; 9; 3; 8; 2; 7] ++ reverse (seq 100 30) ++ seq 200 30 ++
  [1; 0; 4; 0].

(** The state in which the main loop is entered on [seq 0 80]. *)
Definition ascending_entry : state (A:=nat) := State (seq 0 80, []) 13 80 79 80.

(** ** The ranges handed to the sub-sort and to the reversal *)



(** ** The overload of vergesort without a comparator (lines 184-189)

    The comparator is [std::less<value_type>]; the value type is [int],
    as in the benchmark. *)
Definition less_int : Z → Z → bool := Z.ltb.

Definition vergesort_less (pdqsort : (Z → Z → bool) → list Z → list Z)
    (a : list Z) : option mem :=
  vergesort less_int pdqsort a.

(** ** The input generators of the benchmark

    The sizes are [size_t] values, the counters and the elements are
    [int] values.  The random generator that every generator takes is
    left out: the ones below do not use it. *)

(** Conversion of an [int] to [size_t] (64 bits). *)
Definition to_size (z : Z) : Z := (z mod 2 ^ 64)%Z.

(** A [for] loop over an [int] counter [i]: [cond] is its test, [step]
    its increment and [body] what one iteration does to the vector.
    [None] stands for exhausted fuel.  An increment past [INT_MAX] is
    undefined and not modelled. *)
Fixpoint for_int (fuel : nat) (cond : Z → bool) (step : Z → Z)
    (body : Z → list Z → list Z) (i : Z) (v : list Z) : option (list Z) :=
  if cond i then
    match fuel with
    | O => None
    | S fuel' => for_int fuel' cond step body (step i) (body i v)
    end
  else Some v.

Definition push_back (x : Z) (v : list Z) : list Z := v ++ [x].

(** Enough fuel for a loop over a range of [size] values. *)
Definition loop_fuel (size : nat) : nat := S size.

Definition all_equal_int (size : nat) : option (list Z) :=
  let n := Z.of_nat size in
  for_int (loop_fuel size) (λ i, (to_size i <? n)%Z) Z.succ
    (λ _, push_back 0%Z) 0%Z [].

Definition ascending_int (size : nat) : option (list Z) :=
  let n := Z.of_nat size in
  for_int (loop_fuel size) (λ i, (to_size i <? n)%Z) Z.succ push_back 0%Z [].

Definition descending_int (size : nat) : option (list Z) :=
  let n := Z.of_nat size in
  for_int (loop_fuel size) (λ i, (0 <=? i)%Z) Z.pred push_back
    (to_int (to_size (n - 1))) [].

Definition pipe_organ_int (size : nat) : option (list Z) :=
  let n := Z.of_nat size in
  v ← for_int (loop_fuel size) (λ i, (to_size i <? n / 2)%Z) Z.succ
         push_back 0%Z [];
  for_int (loop_fuel size) (λ i, (to_size i <? n)%Z) Z.succ
    (λ i, push_back (to_int (to_size (n - to_size i))))
    (to_int (n / 2)) v.

Definition push_front_int (size : nat) : option (list Z) :=
  let n := Z.of_nat size in
  v ← for_int (loop_fuel size) (λ i, (to_size i <? n)%Z) Z.succ
         push_back 1%Z [];
  Some (push_back 0%Z v).

Definition push_middle_int (size : nat) : option (list Z) :=
  let n := Z.of_nat size in
  v ← for_int (loop_fuel size) (λ i, (to_size i <? n)%Z) Z.succ
         (λ i v, if decide (to_size i ≠ (n / 2)%Z) then push_back i v else v)
         0%Z [];
  Some (push_back (to_int (n / 2)) v).

(** * Ranges: slices and splices *)

Section ranges.
Context {A : Type}.
Implicit Types a l m t : list A.

Lemma slice_length a b e :
  b ≤ e → e ≤ length a → length (slice b e a) = e - b.
Proof. intros. unfold slice. rewrite length_take, length_drop. lia. Qed.

Lemma slice_full a : slice 0 (length a) a = a.
Proof. unfold slice. rewrite drop_0, Nat.sub_0_r. by apply take_ge. Qed.

Lemma slice_0 a e : slice 0 e a = take e a.
Proof. unfold slice. by rewrite drop_0, Nat.sub_0_r. Qed.

Lemma drop_slice a b : drop b a = slice b (length a) a.
Proof.
  unfold slice. symmetry. apply take_ge. by rewrite length_drop.
Qed.

Lemma slice_empty a b : slice b b a = [].
Proof. unfold slice. by rewrite Nat.sub_diag, take_0. Qed.

Lemma slice_split a i j k :
  i ≤ j → j ≤ k → slice i k a = slice i j a ++ slice j k a.
Proof.
  intros. unfold slice.
  replace (k - i) with ((j - i) + (k - j)) by lia.
  rewrite <- take_take_drop, drop_drop.
  by replace (i + (j - i)) with j by lia.
Qed.

Lemma slice_app_l l t i j :
  j ≤ length l → slice i j (l ++ t) = slice i j l.
Proof.
  intros. unfold slice. destruct (decide (i ≤ length l)).
  - rewrite drop_app_le by done. rewrite take_app_le; [done|].
    rewrite length_drop. lia.
  - replace (j - i) with 0 by lia. by rewrite !take_0.
Qed.

Lemma slice_app_r l t i j :
  length l ≤ i → slice i j (l ++ t) = slice (i - length l) (j - length l) t.
Proof.
  intros. unfold slice. rewrite drop_app_ge by done.
  by replace (j - length l - (i - length l)) with (j - i) by lia.
Qed.

Lemma slice_app3_after l m m' t i j :
  length m' = length m → length l + length m ≤ i →
  slice i j (l ++ m' ++ t) = slice i j (l ++ m ++ t).
Proof.
  intros Hm Hi. rewrite !(slice_app_r l) by lia.
  rewrite !slice_app_r by lia. by rewrite Hm.
Qed.

(** A list cut at [b] and [e]. *)
Lemma slice_decompose a b e :
  b ≤ e → a = take b a ++ slice b e a ++ drop e a.
Proof.
  intros. unfold slice.
  rewrite <- (take_drop b a) at 1. f_equal.
  rewrite <- (take_drop (e - b) (drop b a)) at 1. f_equal.
  rewrite drop_drop. by replace (b + (e - b)) with e by lia.
Qed.

Section splice.
Variables (f : list A → list A) (a : list A) (b e : nat).
Hypothesis Hbe : b ≤ e.
Hypothesis He : e ≤ length a.
Hypothesis Hlen : length (f (slice b e a)) = length (slice b e a).

Lemma splice_length : length (splice b e f a) = length a.
Proof using All.
  unfold splice. rewrite !length_app, Hlen, slice_length by done.
  rewrite length_take, length_drop. lia.
Qed.

Lemma splice_before i j : j ≤ b → slice i j (splice b e f a) = slice i j a.
Proof using All.
  intros. unfold splice.
  transitivity (slice i j (take b a ++ slice b e a ++ drop e a));
    [|by rewrite <- slice_decompose].
  by rewrite !slice_app_l by (rewrite length_take; lia).
Qed.

Lemma splice_inside : slice b e (splice b e f a) = f (slice b e a).
Proof using All.
  unfold splice.
  rewrite slice_app_r by (rewrite length_take; lia).
  rewrite length_take_le by lia.
  rewrite Nat.sub_diag, slice_app_l by (rewrite Hlen, slice_length; lia).
  rewrite slice_0. apply take_ge. rewrite Hlen, slice_length; lia.
Qed.

Lemma splice_after i j : e ≤ i → slice i j (splice b e f a) = slice i j a.
Proof using All.
  intros. unfold splice.
  transitivity (slice i j (take b a ++ slice b e a ++ drop e a));
    [|by rewrite <- slice_decompose].
  apply slice_app3_after; [done|].
  rewrite length_take, slice_length; lia.
Qed.

Lemma splice_drop : drop e (splice b e f a) = drop e a.
Proof using All.
  unfold splice. rewrite drop_app_ge by (rewrite length_take; lia).
  rewrite length_take_le by lia.
  rewrite drop_app_ge by (rewrite Hlen, slice_length; lia).
  rewrite Hlen, slice_length by done.
  by rewrite Nat.sub_diag, drop_0.
Qed.

Lemma splice_take : take b (splice b e f a) = take b a.
Proof using All.
  unfold splice. rewrite take_app_le by (rewrite length_take; lia).
  rewrite take_take. f_equal. lia.
Qed.

Lemma splice_Permutation :
  f (slice b e a) ≡ₚ slice b e a → splice b e f a ≡ₚ a.
Proof using All.
  intros Hp. unfold splice. rewrite Hp.
  by rewrite <- slice_decompose.
Qed.
End splice.

End ranges.

(** * Sorted lists and the stable merge *)

Section sorted.
Context {A : Type}.
Implicit Types (R : relation A) (a l : list A).

(** [Sorted] read position by position, as the specification states it. *)
Lemma Sorted_lookup R l :
  Sorted R l ↔ ∀ i x y, l !! i = Some x → l !! S i = Some y → R x y.
Proof.
  split.
  - induction 1 as [|x l Hs IH Hhd]; intros i u v Hu Hv; [done|].
    destruct i as [|i]; simpl in *.
    + destruct Hhd; simplify_eq/=. done.
    + eauto.
  - induction l as [|x l IH]; intros Hadj; constructor.
    + apply IH. intros i u v Hu Hv. by apply (Hadj (S i)).
    + destruct l as [|y l]; constructor. by apply (Hadj 0).
Qed.

Lemma slice_lookup_Some a b e i x :
  slice b e a !! i = Some x ↔ i < e - b ∧ a !! (b + i) = Some x.
Proof.
  unfold slice. rewrite lookup_take, lookup_drop.
  destruct (decide (i < e - b));
    [split; [by intros ?|by intros [_ ?]]|split; [done|intros [? _]; lia]].
Qed.

(** A range is sorted when each of its adjacent pairs is in order. *)
Lemma Sorted_slice R a b e :
  Sorted R (slice b e a) ↔
  ∀ i x y, b ≤ i → S i < e → a !! i = Some x → a !! S i = Some y → R x y.
Proof.
  rewrite Sorted_lookup. split.
  - intros H i x y Hb He Hx Hy. apply (H (i - b)).
    + apply slice_lookup_Some. split; [lia|].
      by replace (b + (i - b)) with i by lia.
    + apply slice_lookup_Some. split; [lia|].
      by replace (b + S (i - b)) with (S i) by lia.
  - intros H i x y [? Hx]%slice_lookup_Some [? Hy]%slice_lookup_Some.
    apply (H (b + i)); [lia|lia|done|].
    by replace (S (b + i)) with (b + S i) by lia.
Qed.

Lemma Sorted_slice_sub R a b e b' e' :
  b ≤ b' → e' ≤ e → Sorted R (slice b e a) → Sorted R (slice b' e' a).
Proof.
  rewrite !Sorted_slice. intros ?? H i x y ??. apply H; lia.
Qed.

End sorted.

Section merge.
Context {A : Type} (compare : A → A → bool).
Implicit Types l : list A.

Local Abbreviation R := (ordered compare).
Local Abbreviation merge := (merge compare).

Lemma merge_nil_l l : merge [] l = l.
Proof. by destruct l. Qed.

Lemma merge_nil_r l : merge l [] = l.
Proof. by destruct l. Qed.

Lemma merge_cons x1 x2 l1 l2 :
  merge (x1 :: l1) (x2 :: l2) =
    if compare x2 x1 then x2 :: merge (x1 :: l1) l2
    else x1 :: merge l1 (x2 :: l2).
Proof. done. Qed.

Lemma merge_Permutation l1 l2 : merge l1 l2 ≡ₚ l1 ++ l2.
Proof.
  revert l2. induction l1 as [|x1 l1 IH1]; intros l2.
  { by rewrite merge_nil_l. }
  induction l2 as [|x2 l2 IH2].
  { by rewrite merge_nil_r, (right_id_L [] (++)). }
  rewrite merge_cons. destruct (compare x2 x1).
  - rewrite IH2. by rewrite <- Permutation_middle.
  - by rewrite IH1.
Qed.

Lemma merge_length l1 l2 : length (merge l1 l2) = length l1 + length l2.
Proof. by rewrite merge_Permutation, length_app. Qed.

Lemma HdRel_merge x l1 l2 :
  HdRel R x l1 → HdRel R x l2 → HdRel R x (merge l1 l2).
Proof.
  destruct 1 as [|x1 l1 H1], 1 as [|x2 l2 H2];
    rewrite ?merge_nil_l, ?merge_nil_r, ?merge_cons;
    try case_match; by constructor.
Qed.

Section order.
Context `{!StrictWeakOrder compare}.

Lemma compare_asym x y : compare x y = true → compare y x = false.
Proof.
  intros Hxy. destruct (compare y x) eqn:Hyx; [|done].
  by rewrite <- (swo_irrefl x), <- (swo_trans x y x Hxy Hyx).
Qed.

Global Instance ordered_total : Total R.
Proof.
  intros x y. unfold ordered.
  destruct (compare y x) eqn:Hyx; [right|by left].
  by apply compare_asym.
Qed.

Global Instance ordered_trans : Transitive R.
Proof.
  intros x y z Hxy Hyz. unfold ordered in *.
  destruct (compare z x) eqn:Hzx; [exfalso|done].
  destruct (compare x y) eqn:Hx.
  { by rewrite (swo_trans z x y Hzx Hx) in Hyz. }
  destruct (compare y z) eqn:Hy.
  { by rewrite (swo_trans y z x Hy Hzx) in Hxy. }
  destruct (swo_incomparable_trans x y z Hx Hxy Hy Hyz) as [_ ?].
  congruence.
Qed.

Lemma Sorted_merge l1 l2 :
  Sorted R l1 → Sorted R l2 → Sorted R (merge l1 l2).
Proof.
  intros Hl1. revert l2.
  induction Hl1 as [|x1 l1 Hs1 IH1 Hhd1]; intros l2 Hl2.
  { by rewrite merge_nil_l. }
  induction Hl2 as [|x2 l2 Hs2 IH2 Hhd2].
  { rewrite merge_nil_r. by constructor. }
  rewrite merge_cons. destruct (compare x2 x1) eqn:Hc.
  - constructor; [done|]. apply HdRel_merge; [|done].
    constructor. by apply compare_asym.
  - constructor; [by apply IH1; constructor|].
    apply HdRel_merge; [done|]. by constructor.
Qed.

(** Merging the two halves of a sorted list changes nothing. *)
Lemma merge_sorted_app l1 l2 : Sorted R (l1 ++ l2) → merge l1 l2 = l1 ++ l2.
Proof.
  intros Hs%Sorted_StronglySorted; [|apply _]. revert Hs.
  induction l1 as [|x1 l1 IH]; intros Hs.
  { by rewrite merge_nil_l. }
  destruct l2 as [|x2 l2].
  { by rewrite merge_nil_r, (right_id_L [] (++)). }
  simpl in Hs. apply StronglySorted_inv in Hs as [Hs Hall].
  rewrite merge_cons.
  assert (compare x2 x1 = false) as ->.
  { by apply Forall_app in Hall as [_ [? _]%Forall_cons]. }
  simpl. f_equal. by apply IH.
Qed.
End order.

(** *** std::inplace_merge as a splice *)

Lemma merge_at_length k l : length (merge_at compare k l) = length l.
Proof.
  unfold merge_at. by rewrite merge_length, <- length_app, take_drop.
Qed.

Lemma merge_at_Permutation k l : merge_at compare k l ≡ₚ l.
Proof. unfold merge_at. by rewrite merge_Permutation, take_drop. Qed.

Lemma merge_at_slice a first middle last :
  first ≤ middle → middle ≤ last → last ≤ length a →
  merge_at compare (middle - first) (slice first last a) =
    merge (slice first middle a) (slice middle last a).
Proof.
  intros. unfold merge_at.
  rewrite (slice_split a first middle last) by done.
  rewrite take_app_length' by (rewrite slice_length; lia).
  by rewrite drop_app_length' by (rewrite slice_length; lia).
Qed.

Lemma inplace_merge_splice a first middle last :
  first ≤ middle → middle ≤ last → last ≤ length a →
  inplace_merge compare first middle last a =
    splice first last (merge_at compare (middle - first)) a.
Proof.
  intros. unfold inplace_merge, splice. by rewrite merge_at_slice.
Qed.
End merge.

(** * The effect of the collaborators on the range *)

Section operations.
Context {A : Type} (compare : A → A → bool).
Implicit Types a : list A.

Local Abbreviation R := (ordered compare).

Section inplace_merge.
Variables (a : list A) (first middle last : nat).
Hypothesis Hfm : first ≤ middle.
Hypothesis Hml : middle ≤ last.
Hypothesis Hl : last ≤ length a.

Local Abbreviation a' := (inplace_merge compare first middle last a).

Lemma inplace_merge_length : length a' = length a.
Proof using All.
  rewrite inplace_merge_splice by done.
  apply splice_length; [lia|done|apply merge_at_length].
Qed.

Lemma inplace_merge_Permutation : a' ≡ₚ a.
Proof using All.
  rewrite inplace_merge_splice by done.
  apply splice_Permutation;
    [lia|done|apply merge_at_length|apply merge_at_Permutation].
Qed.

Lemma inplace_merge_inside :
  slice first last a' =
    merge compare (slice first middle a) (slice middle last a).
Proof using All.
  rewrite inplace_merge_splice by done.
  rewrite splice_inside; [|lia|done|apply merge_at_length].
  by apply merge_at_slice.
Qed.

Lemma inplace_merge_before i j : j ≤ first → slice i j a' = slice i j a.
Proof using All.
  intros. rewrite inplace_merge_splice by done.
  apply splice_before; [lia|done|apply merge_at_length|done].
Qed.

Lemma inplace_merge_after i j : last ≤ i → slice i j a' = slice i j a.
Proof using All.
  intros. rewrite inplace_merge_splice by done.
  apply splice_after; [lia|done|apply merge_at_length|done].
Qed.

Lemma inplace_merge_take : take first a' = take first a.
Proof using All.
  rewrite inplace_merge_splice by done.
  apply splice_take; [lia|done|apply merge_at_length].
Qed.

Lemma inplace_merge_drop : drop last a' = drop last a.
Proof using All.
  rewrite inplace_merge_splice by done.
  apply splice_drop; [lia|done|apply merge_at_length].
Qed.

Lemma inplace_merge_Sorted `{!StrictWeakOrder compare} :
  Sorted R (slice first middle a) → Sorted R (slice middle last a) →
  Sorted R (slice first last a').
Proof using All.
  intros. rewrite inplace_merge_inside. by apply Sorted_merge.
Qed.
End inplace_merge.

(** The range computed by [inplace_merge3], in either order of its two
    merges. *)
Lemma inplace_merge3_range a first middle1 middle2 last :
  (inplace_merge3 compare first middle1 middle2 last a).1 =
    if (distance first middle1 <? distance middle2 last)%Z then
      inplace_merge compare first middle2 last
        (inplace_merge compare first middle1 middle2 a)
    else
      inplace_merge compare first middle1 last
        (inplace_merge compare middle1 middle2 last a).
Proof. unfold inplace_merge3. by case_match. Qed.

Lemma inplace_merge3_calls a first middle1 middle2 last :
  calls_of (inplace_merge3 compare first middle1 middle2 last a).2 =
    if (distance first middle1 <? distance middle2 last)%Z then
      [InplaceMerge first middle1 middle2; InplaceMerge first middle2 last]
    else
      [InplaceMerge middle1 middle2 last; InplaceMerge first middle1 last].
Proof. unfold inplace_merge3. by case_match. Qed.

Section inplace_merge3.
Context `{!StrictWeakOrder compare}.
Variables (a : list A) (first middle1 middle2 last : nat).
Hypothesis H1 : first ≤ middle1.
Hypothesis H2 : middle1 ≤ middle2.
Hypothesis H3 : middle2 ≤ last.
Hypothesis Hl : last ≤ length a.

Local Abbreviation a3 :=
  (inplace_merge3 compare first middle1 middle2 last a).1.

Lemma inplace_merge3_Permutation : a3 ≡ₚ a.
Proof using H1 H2 H3 Hl.
  rewrite inplace_merge3_range. case_match.
  - rewrite inplace_merge_Permutation;
      rewrite ?inplace_merge_length; try lia.
    apply inplace_merge_Permutation; lia.
  - rewrite inplace_merge_Permutation;
      rewrite ?inplace_merge_length; try lia.
    apply inplace_merge_Permutation; lia.
Qed.

Lemma inplace_merge3_take : take first a3 = take first a.
Proof using H1 H2 H3 Hl.
  rewrite inplace_merge3_range. case_match.
  - rewrite inplace_merge_take; rewrite ?inplace_merge_length; try lia.
    apply inplace_merge_take; lia.
  - rewrite inplace_merge_take; rewrite ?inplace_merge_length; try lia.
    rewrite <- !slice_0. apply inplace_merge_before; lia.
Qed.

Lemma inplace_merge3_drop : drop last a3 = drop last a.
Proof using H1 H2 H3 Hl.
  rewrite inplace_merge3_range. case_match.
  - rewrite inplace_merge_drop; rewrite ?inplace_merge_length; try lia.
    rewrite !drop_slice, inplace_merge_length by lia.
    apply inplace_merge_after; lia.
  - rewrite inplace_merge_drop; rewrite ?inplace_merge_length; try lia.
    apply inplace_merge_drop; lia.
Qed.

Lemma inplace_merge3_Sorted :
  Sorted R (slice first middle1 a) → Sorted R (slice middle1 middle2 a) →
  Sorted R (slice middle2 last a) → Sorted R (slice first last a3).
Proof using All.
  intros Hs1 Hs2 Hs3. rewrite inplace_merge3_range. case_match.
  - apply inplace_merge_Sorted;
      rewrite ?inplace_merge_length; try done; try lia.
    + apply inplace_merge_Sorted; done || lia.
    + rewrite inplace_merge_after; done || lia.
  - apply inplace_merge_Sorted;
      rewrite ?inplace_merge_length; try done; try lia.
    + rewrite inplace_merge_before; done || lia.
    + apply inplace_merge_Sorted; done || lia.
Qed.
End inplace_merge3.
End operations.

(** * The scans *)

Section scans.
Context {A : Type}.
Implicit Types (test : A → A → bool) (a : list A).

(** What a scan that returns has established: the cursors are still
    adjacent, no pair of the run met the test, and the pair at which
    the scan stopped before [last] did. *)
Lemma scan_run_Some test fuel a last cur nxt cur' nxt' :
  scan_run test fuel a last cur nxt = Some (cur', nxt') →
  nxt = S cur →
  nxt' = S cur' ∧ nxt ≤ nxt' ∧ (nxt ≤ last → nxt' ≤ last) ∧
  (∀ i x y, cur ≤ i → S i < nxt' →
     a !! i = Some x → a !! S i = Some y → test x y = false) ∧
  (nxt' ≠ last →
     ∃ x y, a !! cur' = Some x ∧ a !! nxt' = Some y ∧ test x y = true).
Proof.
  revert cur nxt. induction fuel as [|fuel IH]; intros cur nxt; simpl.
  - case_decide; [|done]. intros [= <- <-] ->.
    repeat split; try done; intros; lia.
  - case_decide as Hlast.
    { intros [= <- <-] ->. repeat split; try done; intros; lia. }
    destruct (a !! cur) as [x|] eqn:Hx; [|done].
    destruct (a !! nxt) as [y|] eqn:Hy; [|done]. simpl.
    destruct (test x y) eqn:Htest.
    + intros [= <- <-] ->. repeat split; try done; try (intros; lia).
      intros _. by exists x, y.
    + intros Hrec ->.
      destruct (IH _ _ Hrec eq_refl) as (-> & ? & ? & Hadj & Hmax).
      repeat split; try done; try lia.
      intros i u v Hi Hlt Hu Hv. destruct (decide (i = cur)) as [->|].
      * by simplify_eq.
      * apply (Hadj i); done || lia.
Qed.

Lemma scan_run_total test fuel a last cur nxt :
  nxt = S cur → nxt ≤ last → last ≤ length a → last - nxt ≤ fuel →
  is_Some (scan_run test fuel a last cur nxt).
Proof.
  revert cur nxt. induction fuel as [|fuel IH]; intros cur nxt -> ???; simpl.
  - case_decide; [done|lia].
  - case_decide; [done|].
    destruct (lookup_lt_is_Some_2 a cur) as [x ->]; [lia|].
    destruct (lookup_lt_is_Some_2 a (S cur)) as [y ->]; [lia|]. simpl.
    destruct (test x y); [done|]. apply IH; lia.
Qed.

Context (compare : A → A → bool).
Local Abbreviation R := (ordered compare).

Lemma is_sorted_until_loop_scan fuel a first next last :
  next = S first →
  is_sorted_until_loop compare fuel a first next last =
    snd <$> scan_run (λ cur nxt, compare nxt cur) fuel a last first next.
Proof.
  revert first next.
  induction fuel as [|fuel IH]; intros first next ->; simpl.
  - by case_decide; simplify_eq.
  - case_decide; simplify_eq; [done|].
    destruct (a !! S first) as [x|], (a !! first) as [y|]; simpl; try done.
    destruct (compare x y); [done|]. by apply IH.
Qed.

(** The result of [is_sorted_until]: the range up to it is sorted, and
    when it is not [last] it is the position of an element that ranks
    before its predecessor. *)
Lemma is_sorted_until_Some a first last p :
  is_sorted_until compare a first last = Some p → first < last →
  first < p ∧ p ≤ last ∧ Sorted R (slice first p a) ∧
  (p ≠ last → ∃ x y,
     a !! (p - 1) = Some x ∧ a !! p = Some y ∧ compare y x = true).
Proof.
  unfold is_sorted_until. intros Hp Hlt.
  case_decide; [lia|]. rewrite is_sorted_until_loop_scan in Hp by done.
  destruct (scan_run _ _ _ _ _ _) as [[cur' nxt']|] eqn:Hscan; [|done].
  simpl in Hp. simplify_eq.
  destruct (scan_run_Some _ _ _ _ _ _ _ _ Hscan eq_refl)
    as (-> & ? & ? & Hadj & Hmax).
  repeat split; try lia.
  - apply Sorted_slice. intros i x y ?? Hx Hy. by apply (Hadj i).
  - intros Hne. replace (S cur' - 1) with cur' by lia. by apply Hmax.
Qed.

Lemma is_sorted_until_total a first last :
  first ≤ last → last ≤ length a →
  is_Some (is_sorted_until compare a first last).
Proof.
  intros. unfold is_sorted_until. case_decide; [done|].
  rewrite is_sorted_until_loop_scan by done.
  destruct (scan_run_total (λ cur nxt, compare nxt cur) (last - first)
    a last first (S first)) as [[??] ->]; done || lia.
Qed.
End scans.

(** * The invariants of the main loop *)

Section invariants.
Context {A : Type} (compare : A → A → bool).
Context (pdqsort : (A → A → bool) → list A → list A).
Implicit Types (a : list A) (s : state (A:=A)) (m : mem (A:=A)).

Local Abbreviation R := (ordered compare).
Local Abbreviation shape := (shape (A:=A)).
Local Abbreviation run_phase := (run_phase compare pdqsort).
Local Abbreviation dispatch := (dispatch compare pdqsort).
Local Abbreviation vergesort_loop := (vergesort_loop compare pdqsort).
Local Abbreviation detection_point := (detection_point compare pdqsort).
Local Abbreviation loop_exit := (loop_exit compare pdqsort).
Local Abbreviation initial_state := (initial_state compare).
Local Abbreviation finish := (finish compare pdqsort).

Lemma shape_length a k s : shape a k s → length (memory s).1 = length a.
Proof. intros [Hp _ _ _ _]. by rewrite Hp. Qed.

(** ** Permutation and cursors *)

Section shape.
Hypothesis pdqsort_Permutation : ∀ l, pdqsort compare l ≡ₚ l.

Lemma pdqsort_length l : length (pdqsort compare l) = length l.
Proof using pdqsort_Permutation. by rewrite pdqsort_Permutation. Qed.

Lemma splice_pdqsort_Permutation a b e :
  b ≤ e → e ≤ length a → splice b e (pdqsort compare) a ≡ₚ a.
Proof using pdqsort_Permutation.
  intros. by apply splice_Permutation; [..|apply pdqsort_length|].
Qed.

Lemma splice_reverse_Permutation a b e :
  b ≤ e → e ≤ length a → splice b e reverse a ≡ₚ a.
Proof.
  intros. apply splice_Permutation; [done..|apply length_reverse|].
  apply reverse_Permutation.
Qed.

Lemma reverse_if_Permutation (descending : bool) m b e :
  b ≤ e → e ≤ length m.1 →
  (if descending then do_reverse b e m else m).1 ≡ₚ m.1.
Proof.
  intros. destruct descending; [|done].
  by apply splice_reverse_Permutation.
Qed.

Lemma dispatch_shape descending a b s :
  (memory s).1 ≡ₚ a → b < next s → next s ≤ length a →
  begin_unstable s = length a ∨ begin_unstable s < b →
  let s' := dispatch descending 0 (length a) b s in
  (memory s').1 ≡ₚ a ∧ next s' = next s ∧ current s' = current s ∧
  unstable_limit s' = unstable_limit s ∧
  (begin_unstable s' = length a ∨ begin_unstable s' < next s).
Proof using pdqsort_Permutation.
  intros Hp Hb Hn Hbu. unfold dispatch.
  assert (length (memory s).1 = length a) as Hlen by by rewrite Hp.
  destruct (_ >? _)%Z; destruct (Nat.eqb_spec (begin_unstable s) (length a))
    as [Heq|Hne]; simpl; repeat split; auto; try lia.
  - etrans; [apply inplace_merge_Permutation; try lia|].
    + rewrite reverse_if_Permutation by lia. lia.
    + by rewrite reverse_if_Permutation by lia.
  - destruct Hbu as [?|Hbu]; [done|].
    assert (splice (begin_unstable s) b (pdqsort compare) (memory s).1 ≡ₚ a)
      as Hp1 by (by rewrite splice_pdqsort_Permutation by lia).
    assert (∀ m, length m.1 = length a →
      (if descending then do_reverse b (next s) m else m).1 ≡ₚ m.1)
      as Hrev by (intros; apply reverse_if_Permutation; lia).
    etrans; [apply inplace_merge3_Permutation; try lia|].
    + rewrite Hrev; simpl; rewrite Hp1; lia.
    + rewrite Hrev; [done|]. simpl. by rewrite Hp1.
Qed.

Lemma run_phase_shape descending a s s' :
  shape a (current s) s →
  run_phase descending 0 (length a) s = Some s' →
  shape a (next s') s' ∧ next s ≤ next s' ∧
  unstable_limit s' = unstable_limit s.
Proof using pdqsort_Permutation.
  intros [Hp Hc Hn Hl Hm]. unfold run_phase.
  destruct (_ (length a) _ _ _ _) as [[cur nxt]|] eqn:Hscan; [|done].
  simpl. intros [= <-].
  assert (nxt = S cur ∧ next s ≤ nxt ∧ nxt ≤ length a) as (-> & ? & ?).
  { destruct descending;
      destruct (scan_run_Some _ _ _ _ _ _ _ _ Hscan Hc) as (?&?&?&_);
      auto. }
  destruct (dispatch_shape descending a (current s) (with_cursors cur (S cur) s))
    as (? & Hn' & Hc' & Hl' & ?); simpl; try done; try lia.
  simpl in *. rewrite Hn'. split; [|by rewrite Hl'].
  split; try done; by rewrite ?Hn', ?Hc', ?Hl'.
Qed.

Lemma run_phase_total descending a s :
  shape a (current s) s → is_Some (run_phase descending 0 (length a) s).
Proof using pdqsort_Permutation.
  intros Hs. pose proof (shape_length _ _ _ Hs) as Hlen.
  destruct Hs as [Hp Hc Hn Hl Hm]. unfold run_phase.
  destruct (scan_run_total
    (if descending then (λ cur nxt, compare cur nxt)
     else (λ cur nxt, compare nxt cur))
    (length a) (memory s).1 (length a) (current s) (next s))
    as [[cur nxt] Hscan]; try done; try lia.
  by destruct descending; unfold decreasing_range, increasing_range;
    rewrite Hscan.
Qed.

Lemma advance_shape a s :
  shape a (next s) s → next s ≠ length a →
  shape a (current (advance s)) (advance s).
Proof.
  intros [Hp Hc Hn Hl Hm] Hne. split; simpl; try done; lia.
Qed.

Lemma initial_state_shape a s0 :
  0 < length a → initial_state a 0 (length a) = Some s0 →
  shape a (current s0) s0 ∧ memory s0 = (a, []) ∧
  begin_unstable s0 = length a.
Proof.
  intros Hpos. unfold initial_state.
  destruct (is_sorted_until _ _ _ _) as [p|] eqn:Hp; [|done].
  simpl. intros [= <-].
  destruct (is_sorted_until_Some _ _ _ _ _ Hp Hpos) as (? & ? & _).
  repeat split; simpl; auto; lia.
Qed.

Lemma initial_state_total a :
  is_Some (initial_state a 0 (length a)).
Proof.
  unfold initial_state.
  destruct (is_sorted_until_total compare a 0 (length a)) as [p ->];
    done || lia.
Qed.

Lemma detection_point_shape a descending s :
  detection_point a descending s → shape a (current s) s.
Proof using pdqsort_Permutation.
  induction 1 as [s0 Hdist Hinit|s s1 _ IH Hrun Hne|s s2 _ IH Hrun Hne].
  - apply initial_state_shape; [|done]. unfold distance in Hdist. lia.
  - apply advance_shape; [|done]. by eapply run_phase_shape.
  - apply advance_shape; [|done]. by eapply run_phase_shape.
Qed.

Lemma loop_exit_shape a s' : loop_exit a s' → shape a (length a) s'.
Proof using pdqsort_Permutation.
  intros (d & s & Hdet & Hrun & Hlast).
  apply detection_point_shape in Hdet.
  destruct (run_phase_shape _ _ _ _ Hdet Hrun) as [Hs _].
  by rewrite Hlast in Hs.
Qed.

(** The loop returns when it is given as much fuel as there are
    elements left to scan. *)
Lemma vergesort_loop_total fuel a s :
  shape a (current s) s → length a - next s < fuel →
  is_Some (vergesort_loop fuel 0 (length a) s).
Proof using pdqsort_Permutation.
  revert s. induction fuel as [|fuel IH]; intros s Hs Hfuel; [lia|].
  simpl.
  destruct (run_phase_total true a s Hs) as [s1 Hs1]. rewrite Hs1. simpl.
  destruct (run_phase_shape _ _ _ _ Hs Hs1) as (Hs1' & ? & _).
  case_decide as Hne1; [done|].
  pose proof (advance_shape _ _ Hs1' Hne1) as Ha1.
  destruct (run_phase_total false a _ Ha1) as [s2 Hs2]. rewrite Hs2. simpl.
  destruct (run_phase_shape _ _ _ _ Ha1 Hs2) as (Hs2' & ? & _).
  case_decide as Hne2; [done|].
  apply IH; [by apply advance_shape|].
  pose proof (shape_next _ _ _ Hs2'). simpl in *. lia.
Qed.

(** The state the loop returns is a [loop_exit] state. *)
Lemma vergesort_loop_exit fuel a s s' :
  detection_point a true s →
  vergesort_loop fuel 0 (length a) s = Some s' → loop_exit a s'.
Proof.
  revert s. induction fuel as [|fuel IH]; intros s Hdet; [done|]. simpl.
  destruct (run_phase true 0 (length a) s) as [s1|] eqn:Hs1; [|done]. simpl.
  case_decide as Hne1.
  { intros [= <-]. by exists true, s. }
  destruct (run_phase false 0 (length a) (advance s1)) as [s2|] eqn:Hs2;
    [|done]. simpl.
  pose proof (detection_second _ _ _ _ _ Hdet Hs1 Hne1) as Hdet1.
  case_decide as Hne2.
  { intros [= <-]. by exists false, (advance s1). }
  apply IH. by eapply detection_again.
Qed.

Lemma finish_Permutation a s :
  shape a (length a) s → (finish 0 (length a) s).1 ≡ₚ a.
Proof using pdqsort_Permutation.
  intros Hs. pose proof (shape_length _ _ _ Hs) as Hlen.
  destruct Hs as [Hp _ _ _ Hm]. unfold finish.
  destruct (Nat.eqb_spec (begin_unstable s) (length a)); [done|]. simpl.
  assert (splice (begin_unstable s) (length a) (pdqsort compare)
            (memory s).1 ≡ₚ a) as Hp1
    by (by rewrite splice_pdqsort_Permutation by lia).
  etrans; [apply inplace_merge_Permutation; rewrite ?Hp1; lia|done].
Qed.
End shape.

(** ** Order *)

Section order.
Context `{!StrictWeakOrder compare} `{!SubSort compare pdqsort}.

Local Abbreviation order := (order compare (A:=A)).
Local Abbreviation call_pre := (call_pre compare (A:=A)).

Lemma do_pdqsort_order m b e :
  b ≤ e → e ≤ length m.1 → Forall call_pre m.2 →
  let m' := do_pdqsort compare pdqsort b e m in
  length m'.1 = length m.1 ∧ Forall call_pre m'.2 ∧
  Sorted R (slice b e m'.1) ∧
  (∀ i j, j ≤ b → slice i j m'.1 = slice i j m.1) ∧
  (∀ i j, e ≤ i → slice i j m'.1 = slice i j m.1).
Proof.
  intros Hbe He Hcalls. simpl.
  assert (length (pdqsort compare (slice b e m.1)) = length (slice b e m.1))
    as Hlen by apply pdqsort_length, sub_sort_Permutation.
  split_and!.
  - by apply splice_length.
  - apply Forall_app. split; [done|]. apply Forall_singleton.
      unfold call_pre; cbn [fst snd]; split_and!; done || lia.
  - rewrite splice_inside by done. apply sub_sort_Sorted.
  - intros. by apply splice_before.
  - intros. by apply splice_after.
Qed.

Lemma reverse_if_order (descending : bool) m b e :
  b ≤ e → e ≤ length m.1 → Forall call_pre m.2 →
  Sorted (if descending then flip R else R) (slice b e m.1) →
  let m' := if descending then do_reverse b e m else m in
  length m'.1 = length m.1 ∧ Forall call_pre m'.2 ∧
  Sorted R (slice b e m'.1) ∧
  (∀ i j, j ≤ b → slice i j m'.1 = slice i j m.1).
Proof.
  intros Hbe He Hcalls Hrun. destruct descending; simpl; [|done].
  assert (length (reverse (slice b e m.1)) = length (slice b e m.1))
    as Hlen by apply length_reverse.
  split_and!.
  - by apply splice_length.
  - apply Forall_app. split; [done|]. apply Forall_singleton.
      unfold call_pre; cbn [fst snd]; split_and!; done || lia.
  - rewrite splice_inside by done.
    exact (Sorted_reverse (flip R) _ Hrun).
  - intros. by apply splice_before.
Qed.

Lemma dispatch_order (descending : bool) a b s :
  length (memory s).1 = length a → b < next s → next s ≤ length a →
  begin_unstable s = length a ∨ begin_unstable s < b →
  Sorted R (slice 0 (sorted_end (length a) b s) (memory s).1) →
  Forall call_pre (memory s).2 →
  Sorted (if descending then flip R else R) (slice b (next s) (memory s).1) →
  let s' := dispatch descending 0 (length a) b s in
  Sorted R (slice 0 (sorted_end (length a) (next s) s') (memory s').1) ∧
  Forall call_pre (memory s').2.
Proof.
  intros Hlen Hb Hn Hbu Hpre Hcalls Hrun. unfold dispatch, sorted_end in *.
  revert Hpre.
  destruct (_ >? _)%Z; destruct (Nat.eqb_spec (begin_unstable s) (length a))
    as [Heq|Hne]; simpl; intros Hpre.
  - (* a long run, no pending batch *)
    destruct (reverse_if_order descending (memory s) b (next s))
      as (Hlen2 & Hcalls2 & Hrun2 & Hbefore2); try done; try lia.
    set (m2 := if descending then do_reverse _ _ _ else _) in *.
    assert (Sorted R (slice 0 b m2.1)) by by rewrite Hbefore2.
    replace (begin_unstable s =? length a) with true
      by (symmetry; by apply Nat.eqb_eq).
    split.
    + apply inplace_merge_Sorted; done || lia.
    + apply Forall_app. split; [done|]. apply Forall_singleton.
      unfold call_pre; cbn [fst snd]; split_and!; done || lia.
  - (* a long run, a pending batch *)
    destruct Hbu as [?|Hbu]; [done|].
    destruct (do_pdqsort_order (memory s) (begin_unstable s) b)
      as (Hlen1 & Hcalls1 & Hbatch1 & Hbefore1 & Hafter1);
      try done; try lia.
    set (m1 := do_pdqsort _ _ _ _ _) in *.
    destruct (reverse_if_order descending m1 b (next s))
      as (Hlen2 & Hcalls2 & Hrun2 & Hbefore2); try done; try lia.
    { by rewrite Hafter1. }
    set (m2 := if descending then do_reverse _ _ _ else _) in *.
    assert (Sorted R (slice 0 (begin_unstable s) m2.1))
      by (by rewrite Hbefore2, Hbefore1 by lia).
    assert (Sorted R (slice (begin_unstable s) b m2.1))
      by (by rewrite Hbefore2 by lia).
    rewrite Nat.eqb_refl. split.
    + apply inplace_merge3_Sorted; done || lia.
    + apply Forall_app. split; [done|]. apply Forall_singleton.
      unfold call_pre; cbn [fst snd]; split_and!; done || lia.
  - (* a short run that starts a batch *)
    destruct (Nat.eqb_spec b (length a)); [lia|done].
  - (* a short run that extends the batch *)
    by destruct (Nat.eqb_spec (begin_unstable s) (length a)).
Qed.

Lemma run_phase_order (descending : bool) a s s' :
  shape a (current s) s → order a (current s) s →
  run_phase descending 0 (length a) s = Some s' →
  order a (next s') s'.
Proof.
  intros Hs [Hpre Hcalls]. pose proof (shape_length _ _ _ Hs) as Hlen.
  destruct Hs as [Hp Hc Hn Hl Hm]. unfold run_phase.
  destruct (_ (length a) _ _ _ _) as [[cur nxt]|] eqn:Hscan; [|done].
  simpl. intros [= <-].
  assert (nxt = S cur ∧ next s ≤ nxt ∧ nxt ≤ length a ∧
          Sorted (if descending then flip R else R)
            (slice (current s) nxt (memory s).1))
    as (-> & ? & ? & Hrun).
  { destruct descending;
      destruct (scan_run_Some _ _ _ _ _ _ _ _ Hscan Hc)
        as (?&?&?&Hadj&_); split_and!; auto;
      apply Sorted_slice; intros i x y ????; by apply (Hadj i). }
  destruct (dispatch_order descending a (current s)
              (with_cursors cur (S cur) s)) as [Hpre' Hcalls'];
    simpl; try done; try lia.
  destruct (dispatch_shape sub_sort_Permutation
              descending a (current s) (with_cursors cur (S cur) s))
    as (_ & Hn' & _); simpl; try done; try lia.
  simpl in *. split; [by rewrite Hn'|done].
Qed.

Lemma advance_order a s :
  next s = S (current s) →
  order a (next s) s → order a (current (advance s)) (advance s).
Proof.
  intros Hc [Hpre Hcalls]. split; [|done].
  unfold sorted_end in *. simpl. by rewrite <- Hc.
Qed.

Lemma initial_state_order a s0 :
  0 < length a → initial_state a 0 (length a) = Some s0 →
  order a (current s0) s0.
Proof.
  intros Hpos. unfold initial_state.
  destruct (is_sorted_until _ _ _ _) as [p|] eqn:Hp; [|done].
  simpl. intros [= <-].
  destruct (is_sorted_until_Some _ _ _ _ _ Hp Hpos) as (? & ? & Hs & _).
  split; [|done]. unfold sorted_end. simpl. rewrite Nat.eqb_refl.
  eapply Sorted_slice_sub; [| |done]; lia.
Qed.

Lemma detection_point_order a descending s :
  detection_point a descending s → order a (current s) s.
Proof.
  induction 1 as [s0 Hdist Hinit|s s1 Hdet IH Hrun Hne|s s2 Hdet IH Hrun Hne].
  - apply initial_state_order; [|done]. unfold distance in Hdist. lia.
  - apply (detection_point_shape sub_sort_Permutation) in Hdet.
    apply advance_order; [|by eapply run_phase_order].
    by destruct (run_phase_shape sub_sort_Permutation _ _ _ _ Hdet Hrun)
      as [[] _].
  - apply (detection_point_shape sub_sort_Permutation) in Hdet.
    apply advance_order; [|by eapply run_phase_order].
    by destruct (run_phase_shape sub_sort_Permutation _ _ _ _ Hdet Hrun)
      as [[] _].
Qed.

Lemma loop_exit_order a s' : loop_exit a s' → order a (length a) s'.
Proof.
  intros (d & s & Hdet & Hrun & Hlast).
  pose proof (detection_point_shape sub_sort_Permutation _ _ _ Hdet).
  pose proof (detection_point_order _ _ _ Hdet).
  rewrite <- Hlast. by eapply run_phase_order.
Qed.

(** After the final step the whole range is sorted. *)
Lemma finish_order a s :
  shape a (length a) s → order a (length a) s →
  let m := finish 0 (length a) s in
  Sorted R m.1 ∧ Forall call_pre m.2.
Proof.
  intros Hs [Hpre Hcalls]. pose proof (shape_length _ _ _ Hs) as Hlen.
  destruct Hs as [Hp _ _ _ Hm]. unfold finish, sorted_end in *.
  revert Hpre.
  destruct (Nat.eqb_spec (begin_unstable s) (length a)); cbn [negb];
    intros Hpre.
  { split; [|done]. by rewrite <- Hlen, slice_full in Hpre. }
  destruct Hm as [?|Hm]; [done|].
  destruct (do_pdqsort_order (memory s) (begin_unstable s) (length a))
    as (Hlen1 & Hcalls1 & Hbatch1 & Hbefore1 & _); try done; try lia.
  set (m1 := do_pdqsort _ _ _ _ _) in *.
  assert (Sorted R (slice 0 (begin_unstable s) m1.1))
    by (by rewrite Hbefore1).
  split.
  - assert (length (inplace_merge compare 0 (begin_unstable s) (length a)
              m1.1) = length a) as Hlen2
      by (rewrite inplace_merge_length; lia).
    change (Sorted R (inplace_merge compare 0 (begin_unstable s)
                        (length a) m1.1)).
    rewrite <- (slice_full (inplace_merge _ _ _ _ _)), Hlen2.
    apply inplace_merge_Sorted; done || lia.
  - unfold do_inplace_merge, exec; cbn [fst snd].
    apply Forall_app. split; [done|]. apply Forall_singleton.
      unfold call_pre; cbn [fst snd]; split_and!; done || lia.
Qed.
End order.

(** ** The threshold and the calls of a phase *)

Lemma dispatch_limit descending first last b s :
  unstable_limit (dispatch descending first last b s) = unstable_limit s.
Proof. unfold dispatch. by repeat case_match. Qed.

Lemma run_phase_limit descending first last s s' :
  run_phase descending first last s = Some s' →
  unstable_limit s' = unstable_limit s.
Proof.
  unfold run_phase.
  destruct (_ last _ _ _ _) as [[cur nxt]|]; [|done]. simpl.
  intros [= <-]. by rewrite dispatch_limit.
Qed.

Lemma detection_point_limit a descending s :
  detection_point a descending s →
  (80 ≤ distance 0 (length a))%Z ∧
  unstable_limit s = unstable_limit_of (distance 0 (length a)).
Proof.
  induction 1 as [s0 Hdist Hinit|s s1 _ [? IH] Hrun _|s s2 _ [? IH] Hrun _].
  - split; [done|]. unfold initial_state in Hinit.
    destruct (is_sorted_until _ _ _ _); by simplify_eq/=.
  - split; [done|]. simpl. by rewrite (run_phase_limit _ _ _ _ _ Hrun).
  - split; [done|]. simpl. by rewrite (run_phase_limit _ _ _ _ _ Hrun).
Qed.

(** The calls a dispatch adds to the log. *)
Lemma dispatch_calls (descending : bool) last b s :
  let bu := begin_unstable s in
  let nx := next s in
  calls_of (memory (dispatch descending 0 last b s)).2 =
    calls_of (memory s).2 ++
    if (distance b nx >? unstable_limit s)%Z then
      (if decide (bu = last) then [] else [Pdqsort bu b]) ++
      (if descending then [Reverse b nx] else []) ++
      [if decide (bu = last) then InplaceMerge 0 b nx
       else InplaceMerge3 0 bu b nx]
    else [].
Proof.
  cbv zeta. unfold dispatch, calls_of.
  destruct (_ >? _)%Z;
    destruct (Nat.eqb_spec (begin_unstable s) last);
    destruct descending; simpl; try case_decide; try done;
    rewrite ?fmap_app, <- ?(assoc_L (++)), ?(right_id_L [] (++)); done.
Qed.

Lemma dispatch_begin_unstable (descending : bool) last b s :
  begin_unstable (dispatch descending 0 last b s) =
    if (distance b (next s) >? unstable_limit s)%Z then
      if decide (begin_unstable s = last) then begin_unstable s else last
    else if decide (begin_unstable s = last) then b else begin_unstable s.
Proof.
  unfold dispatch.
  destruct (_ >? _)%Z; destruct (Nat.eqb_spec (begin_unstable s) last);
    simpl; by try case_decide.
Qed.

Lemma dispatch_short (descending : bool) last b s :
  (distance b (next s) >? unstable_limit s)%Z = false →
  memory (dispatch descending 0 last b s) = memory s.
Proof. unfold dispatch. intros ->. by case_match. Qed.

(** The range a long run leaves: the pending batch sub-sorted, the run
    reversed when it is a descending one, and the merge. *)
Lemma dispatch_long (descending : bool) last b s :
  (distance b (next s) >? unstable_limit s)%Z = true →
  let bu := begin_unstable s in
  let r := (memory s).1 in
  let batch :=
    if decide (bu = last) then r else splice bu b (pdqsort compare) r in
  let run := if descending then splice b (next s) reverse batch else batch in
  (memory (dispatch descending 0 last b s)).1 =
    if decide (bu = last) then inplace_merge compare 0 b (next s) run
    else (inplace_merge3 compare 0 bu b (next s) run).1.
Proof.
  intros Hlong. cbv zeta. unfold dispatch. rewrite Hlong.
  destruct (Nat.eqb_spec (begin_unstable s) last); case_decide; try done;
    by destruct descending.
Qed.

Lemma dispatch_next descending first last b s :
  next (dispatch descending first last b s) = next s.
Proof. unfold dispatch. by repeat case_match. Qed.

Lemma run_phase_Some descending first last s s' :
  run_phase descending first last s = Some s' →
  ∃ cur, s' = dispatch descending first last (current s)
                (with_cursors cur (next s') s).
Proof.
  unfold run_phase.
  destruct (_ last _ _ _ _) as [[cur nxt]|]; [|done]. simpl.
  intros [= <-]. exists cur. by rewrite dispatch_next.
Qed.

Lemma scan_run_at_end test fuel a last cur :
  scan_run test fuel a last cur last = Some (cur, last).
Proof. destruct fuel; simpl; by case_decide. Qed.

(** The loop is left after its first half when that half reaches
    [last]. *)
Lemma vergesort_loop_first fuel last s s1 :
  0 < fuel → run_phase true 0 last s = Some s1 → next s1 = last →
  vergesort_loop fuel 0 last s = Some s1.
Proof.
  intros Hfuel Hrun Hlast. destruct fuel; [lia|].
  simpl. rewrite Hrun. simpl. by case_decide.
Qed.

Lemma is_sorted_until_sorted a :
  Sorted R a → 0 < length a →
  is_sorted_until compare a 0 (length a) = Some (length a).
Proof.
  intros Hs Hpos.
  destruct (is_sorted_until_total compare a 0 (length a)) as [p Hp];
    [lia|done|].
  destruct (is_sorted_until_Some _ _ _ _ _ Hp Hpos) as (? & ? & _ & Hmax).
  destruct (decide (p = length a)) as [->|Hne]; [done|].
  destruct (Hmax Hne) as (x & y & Hx & Hy & Hc).
  rewrite Sorted_lookup in Hs. specialize (Hs (p - 1) x y Hx).
  replace (S (p - 1)) with p in Hs by lia.
  unfold ordered in Hs. rewrite Hs in Hc; done.
Qed.

Lemma splice_id (f : list A → list A) a b e :
  b ≤ e → f (slice b e a) = slice b e a → splice b e f a = a.
Proof.
  intros ? Hf. unfold splice. rewrite Hf. symmetry. by apply slice_decompose.
Qed.

Lemma pdqsort_short l :
  (∀ l, pdqsort compare l ≡ₚ l) → length l ≤ 1 → pdqsort compare l = l.
Proof.
  intros Hperm Hlen. pose proof (Hperm l) as Hp.
  destruct l as [|x [|y l]]; simpl in *; [..|lia].
  - by apply Permutation_nil_r in Hp.
  - by apply Permutation_singleton_r in Hp.
Qed.

Lemma finish_calls last s :
  calls_of (finish 0 last s).2 =
    calls_of (memory s).2 ++
    if decide (begin_unstable s = last) then []
    else [Pdqsort (begin_unstable s) last;
          InplaceMerge 0 (begin_unstable s) last].
Proof.
  unfold finish, calls_of.
  destruct (Nat.eqb_spec (begin_unstable s) last); case_decide; try done;
    simpl; by rewrite ?fmap_app, <- ?(assoc_L (++)), ?(right_id_L [] (++)).
Qed.

(** The range the final step leaves. *)
Lemma finish_range last s :
  (finish 0 last s).1 =
    if decide (begin_unstable s = last) then (memory s).1
    else inplace_merge compare 0 (begin_unstable s) last
           (splice (begin_unstable s) last (pdqsort compare) (memory s).1).
Proof.
  unfold finish.
  by destruct (Nat.eqb_spec (begin_unstable s) last); case_decide.
Qed.
End invariants.

(** * Concrete comparators and sub-sorts *)

Global Instance insertion_sort_SubSort {A : Type} (compare : A → A → bool)
  `{!StrictWeakOrder compare} : SubSort compare insertion_sort.
Proof.
  split; intros l; unfold insertion_sort.
  - induction l as [|x l IH]; cbn [foldr]; [done|].
    by rewrite merge_Permutation, IH.
  - induction l as [|x l IH]; cbn [foldr]; [constructor|].
    apply Sorted_merge; [done|by repeat constructor|done].
Qed.

Global Instance ltb_StrictWeakOrder : StrictWeakOrder Nat.ltb.
Proof.
  split.
  - intros x. apply Nat.ltb_irrefl.
  - intros x y z ?%Nat.ltb_lt ?%Nat.ltb_lt. apply Nat.ltb_lt. lia.
  - intros x y z ?%Nat.ltb_ge ?%Nat.ltb_ge ?%Nat.ltb_ge ?%Nat.ltb_ge.
    split; apply Nat.ltb_ge; lia.
Qed.

(** * The threshold *)

Lemma to_int_small z : (0 ≤ z < 2 ^ 31)%Z → to_int z = z.
Proof. intros. unfold to_int. rewrite Z.mod_small; lia. Qed.

Lemma to_int_range z : (- 2 ^ 31 ≤ to_int z < 2 ^ 31)%Z.
Proof.
  unfold to_int. pose proof (Z.mod_pos_bound (z + 2 ^ 31) (2 ^ 32)). lia.
Qed.

Lemma log2_ge_6 n : (80 ≤ n)%Z → (6 ≤ log2 n)%Z.
Proof.
  intros. unfold log2. change 6%Z with (Z.log2 64).
  apply Z.log2_le_mono. lia.
Qed.

Lemma quotient_bounds n : (80 ≤ n)%Z → (1 ≤ n / log2 n < n)%Z.
Proof.
  intros Hn. pose proof (log2_ge_6 n Hn). split.
  - apply Z.div_le_lower_bound; [lia|].
    unfold log2 in *. pose proof (Z.log2_lt_lin n). lia.
  - apply Z.div_lt; lia.
Qed.

(** From the cutoff on the threshold is smaller than the length of the
    range, whatever the conversion to [int] does. *)
Lemma unstable_limit_of_lt n : (80 ≤ n)%Z → (unstable_limit_of n < n)%Z.
Proof.
  intros Hn. unfold unstable_limit_of.
  pose proof (quotient_bounds n Hn). pose proof (to_int_range (n / log2 n)).
  destruct (Z.lt_ge_cases (n / log2 n) (2 ^ 31)).
  - rewrite to_int_small; lia.
  - lia.
Qed.

Lemma unstable_limit_of_fits n :
  (80 ≤ n)%Z → (n / log2 n < 2 ^ 31)%Z →
  unstable_limit_of n = (n / log2 n)%Z ∧ (1 ≤ unstable_limit_of n)%Z.
Proof.
  intros Hn Hfit. unfold unstable_limit_of.
  pose proof (quotient_bounds n Hn). rewrite to_int_small; lia.
Qed.

(** * The behaviour of vergesort *)

Section correctness.
Context {A : Type} (compare : A → A → bool).
Context (pdqsort : (A → A → bool) → list A → list A).
Implicit Types a : list A.

Local Abbreviation R := (ordered compare).
Local Abbreviation vergesort := (vergesort compare pdqsort).

Lemma splice_full (f : list A → list A) a : splice 0 (length a) f a = f a.
Proof.
  unfold splice. by rewrite take_0, slice_full, drop_all, (right_id_L [] (++)).
Qed.

(** Below the cutoff the whole range goes to the sub-sort. *)
Lemma vergesort_small a :
  (distance 0 (length a) < 80)%Z →
  vergesort a = Some (pdqsort compare a, [(Pdqsort 0 (length a), a)]).
Proof.
  intros Hlt. unfold vergesort.
  destruct (Z.ltb_spec (distance 0 (length a)) 80); [|lia].
  unfold do_pdqsort, exec. simpl. by rewrite splice_full.
Qed.

(** From the cutoff on, the main loop runs to a [loop_exit] state and
    the final step is applied to it. *)
Lemma vergesort_large a :
  (∀ l, pdqsort compare l ≡ₚ l) →
  (80 ≤ distance 0 (length a))%Z →
  ∃ s', loop_exit compare pdqsort a s' ∧
        vergesort a = Some (finish compare pdqsort 0 (length a) s').
Proof.
  intros Hperm Hge. unfold vergesort.
  destruct (Z.ltb_spec (distance 0 (length a)) 80); [lia|].
  assert (0 < length a) as Hpos by (unfold distance in Hge; lia).
  destruct (initial_state_total compare a) as [s0 Hs0]. rewrite Hs0. simpl.
  destruct (initial_state_shape compare a s0 Hpos Hs0) as (Hshape & _ & _).
  pose proof (detection_first compare pdqsort a s0 Hge Hs0) as Hdet.
  destruct (vergesort_loop_total compare pdqsort Hperm (length a) a s0)
    as [s' Hs']; [done| |].
  { destruct Hshape. lia. }
  rewrite Hs'. simpl. exists s'. split; [|done].
  by eapply vergesort_loop_exit.
Qed.

(** [vergesort] returns, with a permutation of its input. *)
Lemma vergesort_permutes a :
  (∀ l, pdqsort compare l ≡ₚ l) →
  ∃ m, vergesort a = Some m ∧ m.1 ≡ₚ a.
Proof.
  intros Hperm.
  destruct (Z.lt_ge_cases (distance 0 (length a)) 80) as [Hlt|Hge].
  - rewrite vergesort_small by done. eexists. split; [done|]. apply Hperm.
  - destruct (vergesort_large a Hperm Hge) as (s' & Hexit & ->).
    eexists. split; [done|].
    eapply finish_Permutation; [done|]. by eapply loop_exit_shape.
Qed.

(** C2: the range after [vergesort] is a permutation of the range
    before it, whatever the comparator, when the sub-sort permutes the
    ranges it is given: no element is created, lost or duplicated. *)
Theorem vergesort_Permutation a :
  (∀ l, pdqsort compare l ≡ₚ l) →
  ∃ m, vergesort a = Some m ∧ m.1 ≡ₚ a.
Proof. apply vergesort_permutes. Qed.

(** C1: for a strict weak order, after [vergesort] no element of the
    range ranks before its predecessor. *)
Theorem vergesort_sorted `{!StrictWeakOrder compare}
    `{!SubSort compare pdqsort} a :
  ∃ m, vergesort a = Some m ∧ length m.1 = length a ∧
    ∀ i x y, m.1 !! i = Some x → m.1 !! S i = Some y → compare y x = false.
Proof.
  destruct (vergesort_permutes a sub_sort_Permutation) as (m & Hm & Hp).
  exists m. split; [done|]. split; [by rewrite Hp|].
  apply (Sorted_lookup R).
  destruct (Z.lt_ge_cases (distance 0 (length a)) 80) as [Hlt|Hge].
  - rewrite vergesort_small in Hm by done. simplify_eq. simpl.
    apply sub_sort_Sorted.
  - destruct (vergesort_large a sub_sort_Permutation Hge)
      as (s' & Hexit & Hrun).
    rewrite Hrun in Hm. simplify_eq.
    eapply finish_order; [done..| |].
    + eapply loop_exit_shape; [apply sub_sort_Permutation|done].
    + by eapply loop_exit_order.
Qed.

(** C6: below the cutoff the outcome of [vergesort] is that of the one
    call [pdqsort(first, last, compare)]. *)
Theorem vergesort_below_cutoff a :
  length a < 80 →
  vergesort a = Some (do_pdqsort compare pdqsort 0 (length a) (a, [])) ∧
  (do_pdqsort compare pdqsort 0 (length a) (a, [])).1 = pdqsort compare a ∧
  calls_of (do_pdqsort compare pdqsort 0 (length a) (a, [])).2 =
    [Pdqsort 0 (length a)].
Proof.
  intros Hlt. split_and!.
  - unfold vergesort.
    by destruct (Z.ltb_spec (distance 0 (length a)) 80);
      [|unfold distance in *; lia].
  - apply splice_full.
  - done.
Qed.

(** C5, as amended: on an empty or one-element range [vergesort]
    leaves the range unchanged and makes exactly one call, of the
    sub-sort on the whole range; it makes no merge call. *)
Theorem vergesort_empty_singleton a :
  (∀ l, pdqsort compare l ≡ₚ l) → length a ≤ 1 →
  ∃ t, vergesort a = Some (a, t) ∧ calls_of t = [Pdqsort 0 (length a)].
Proof.
  intros Hperm Hlen. rewrite vergesort_small by (unfold distance; lia).
  exists [(Pdqsort 0 (length a), a)]. split; [|done]. do 2 f_equal.
  pose proof (Hperm a) as Hp. destruct a as [|x [|y a]]; simpl in *; [..|lia].
  - by apply Permutation_nil_r in Hp.
  - by apply Permutation_singleton_r in Hp.
Qed.

(** C8: [inplace_merge3] on three adjacent sorted ranges leaves
    [first, last) sorted, permutes its elements and touches nothing
    outside it; the left pair is merged first when
    [distance(first, middle1) < distance(middle2, last)], the right pair
    otherwise. *)
Theorem inplace_merge3_correct `{!StrictWeakOrder compare}
    a (first middle1 middle2 last : nat) :
  first ≤ middle1 → middle1 ≤ middle2 → middle2 ≤ last → last ≤ length a →
  Sorted R (slice first middle1 a) →
  Sorted R (slice middle1 middle2 a) →
  Sorted R (slice middle2 last a) →
  let r := inplace_merge3 compare first middle1 middle2 last a in
  Sorted R (slice first last r.1) ∧
  r.1 ≡ₚ a ∧ slice first last r.1 ≡ₚ slice first last a ∧
  take first r.1 = take first a ∧ drop last r.1 = drop last a ∧
  calls_of r.2 =
    if (distance first middle1 <? distance middle2 last)%Z then
      [InplaceMerge first middle1 middle2; InplaceMerge first middle2 last]
    else
      [InplaceMerge middle1 middle2 last; InplaceMerge first middle1 last].
Proof.
  intros H1 H2 H3 Hl Hs1 Hs2 Hs3 r.
  assert (r.1 ≡ₚ a) as Hp by by apply inplace_merge3_Permutation.
  assert (take first r.1 = take first a) as Ht
    by by apply inplace_merge3_take.
  assert (drop last r.1 = drop last a) as Hd
    by by apply inplace_merge3_drop.
  split_and!; try done.
  - by apply inplace_merge3_Sorted.
  - rewrite (slice_decompose r.1 first last), (slice_decompose a first last)
      in Hp by lia.
    rewrite Ht, Hd in Hp.
    by apply (inj (app _)), (inj (λ l, l ++ _)) in Hp.
  - apply inplace_merge3_calls.
Qed.

(** C4, as amended: at every run detection of a call on [n >= 80]
    elements the threshold is the one value [n / log2(n)], the integer
    quotient by the integer logarithm converted to [int], with no
    factor 0.9; when the quotient fits an [int] it is that quotient. *)
Theorem unstable_limit_constant a descending s :
  detection_point compare pdqsort a descending s →
  let n := Z.of_nat (length a) in
  (80 ≤ n)%Z ∧
  unstable_limit s = to_int (n / Z.log2 n) ∧
  ((n / Z.log2 n < 2 ^ 31)%Z → unstable_limit s = (n / Z.log2 n)%Z).
Proof.
  intros [Hge Hlim]%detection_point_limit n.
  unfold distance in *. change (Z.of_nat 0) with 0%Z in *.
  rewrite Z.sub_0_r in *. fold n in Hge, Hlim.
  split_and!; [done..|]. intros Hfit. rewrite Hlim.
  by apply unstable_limit_of_fits.
Qed.

(** C9: the marker [begin_unstable] is the sentinel [last] or the start
    of the one pending batch, which lies before the run being detected;
    a long run sub-sorts the pending batch, merges it and the run into
    the sorted prefix, which then reaches the end of the run, and resets
    the marker; a short run leaves the range alone and starts a batch
    only when none is pending; a batch still pending when the loop is
    left is sub-sorted and merged by the last two calls, which leave the
    whole range sorted. *)
Theorem pending_batch_discipline `{!StrictWeakOrder compare}
    `{!SubSort compare pdqsort} a :
  (∀ descending s s',
     detection_point compare pdqsort a descending s →
     run_phase compare pdqsort descending 0 (length a) s = Some s' →
     let bu := begin_unstable s in
     let begin_rng := current s in
     let r := (memory s).1 in
     (bu = length a ∨ bu < begin_rng) ∧
     if (distance begin_rng (next s') >? unstable_limit s)%Z then
       begin_unstable s' = length a ∧
       calls_of (memory s').2 =
         calls_of (memory s).2 ++
         (if decide (bu = length a) then [] else [Pdqsort bu begin_rng]) ++
         (if descending then [Reverse begin_rng (next s')] else []) ++
         [if decide (bu = length a)
          then InplaceMerge 0 begin_rng (next s')
          else InplaceMerge3 0 bu begin_rng (next s')] ∧
       (let batch :=
          if decide (bu = length a) then r
          else splice bu begin_rng (pdqsort compare) r in
        let run :=
          if descending then splice begin_rng (next s') reverse batch
          else batch in
        (memory s').1 =
          if decide (bu = length a)
          then inplace_merge compare 0 begin_rng (next s') run
          else (inplace_merge3 compare 0 bu begin_rng (next s') run).1) ∧
       (memory s').1 ≡ₚ r ∧
       Sorted R (slice 0 (next s') (memory s').1)
     else
       memory s' = memory s ∧
       begin_unstable s' = if decide (bu = length a) then begin_rng else bu) ∧
  (∀ m, 80 ≤ length a → vergesort a = Some m →
     ∃ s', loop_exit compare pdqsort a s' ∧ m.1 ≡ₚ a ∧ Sorted R m.1 ∧
       calls_of m.2 =
         calls_of (memory s').2 ++
         (if decide (begin_unstable s' = length a) then []
          else [Pdqsort (begin_unstable s') (length a);
                InplaceMerge 0 (begin_unstable s') (length a)]) ∧
       m.1 =
         if decide (begin_unstable s' = length a) then (memory s').1
         else inplace_merge compare 0 (begin_unstable s') (length a)
                (splice (begin_unstable s') (length a) (pdqsort compare)
                   (memory s').1)).
Proof.
  pose proof (sub_sort_Permutation (compare:=compare)) as Hperm. split.
  - intros descending s s' Hdet Hrun. cbv zeta.
    pose proof (detection_point_shape _ _ Hperm _ _ _ Hdet) as Hshape.
    pose proof (detection_point_order _ _ _ _ _ Hdet) as Horder.
    destruct (run_phase_shape _ _ Hperm _ _ _ _ Hshape Hrun)
      as (Hshape' & _ & _).
    pose proof (run_phase_order _ _ _ _ _ _ Hshape Horder Hrun)
      as [Hprefix _].
    split; [by destruct Hshape|].
    destruct (run_phase_Some _ _ _ _ _ _ _ Hrun) as [cur Hs'].
    pose proof (dispatch_calls compare pdqsort descending (length a)
      (current s) (with_cursors cur (next s') s)) as Hcalls.
    pose proof (dispatch_begin_unstable compare pdqsort descending (length a)
      (current s) (with_cursors cur (next s') s)) as Hbu.
    pose proof (dispatch_short compare pdqsort descending (length a)
      (current s) (with_cursors cur (next s') s)) as Hshort.
    pose proof (dispatch_long compare pdqsort descending (length a)
      (current s) (with_cursors cur (next s') s)) as Hlong.
    cbv zeta in Hcalls, Hlong.
    rewrite <- Hs' in Hcalls, Hbu, Hshort, Hlong.
    simpl in Hcalls, Hbu, Hshort, Hlong.
    destruct (_ >? _)%Z.
    + assert (begin_unstable s' = length a) as Hlast
        by (rewrite Hbu; by case_decide).
      split_and!; [done..|by apply Hlong| |].
      * destruct Hshape, Hshape'. by etrans.
      * unfold sorted_end in Hprefix.
        by rewrite Hlast, Nat.eqb_refl in Hprefix.
    + split; [by apply Hshort|done].
  - intros m Hlen Hm.
    destruct (vergesort_large a Hperm) as (s' & Hexit & Hrun).
    { unfold distance. lia. }
    rewrite Hrun in Hm. simplify_eq. exists s'.
    pose proof (loop_exit_shape _ _ Hperm _ _ Hexit) as Hshape.
    pose proof (loop_exit_order _ _ _ _ Hexit) as Horder.
    split_and!; [done| | | |].
    + by eapply finish_Permutation.
    + by eapply finish_order.
    + apply finish_calls.
    + apply finish_range.
Qed.

(** C10: whenever the main loop starts detecting a run, the range from
    [first] to the pending batch, or to the run when no batch is
    pending, is sorted; and every merge [vergesort] calls starts at
    [first] and is given sorted parts. *)
Theorem sorted_prefix_invariant `{!StrictWeakOrder compare}
    `{!SubSort compare pdqsort} a :
  (∀ descending s,
     detection_point compare pdqsort a descending s →
     Sorted R (slice 0 (sorted_end (length a) (current s) s) (memory s).1)) ∧
  (∀ m, vergesort a = Some m → Forall (call_pre compare) m.2).
Proof.
  split.
  - intros descending s Hdet.
    by destruct (detection_point_order _ _ _ _ _ Hdet).
  - intros m Hm.
    destruct (Z.lt_ge_cases (distance 0 (length a)) 80) as [Hlt|Hge].
    + rewrite vergesort_small in Hm by done. simplify_eq. simpl.
      apply Forall_singleton. unfold call_pre. simpl. lia.
    + destruct (vergesort_large a sub_sort_Permutation Hge)
        as (s' & Hexit & Hrun).
      rewrite Hrun in Hm. simplify_eq.
      eapply finish_order; [done..| |].
      * eapply loop_exit_shape; [apply sub_sort_Permutation|done].
      * by eapply loop_exit_order.
Qed.

(** C7, as amended: on a reverse-sorted range of at least 80 elements
    whose second element ranks before the first, [vergesort] finds one
    descending run that covers the range, reverses it with one call and
    calls no sub-sort; its only other call merges the empty range before
    the run with it. *)
Theorem vergesort_descending_input a x y :
  80 ≤ length a → Sorted R (reverse a) →
  a !! 0 = Some x → a !! 1 = Some y → compare y x = true →
  let n := length a in
  vergesort a =
    Some (reverse a, [(Reverse 0 n, a); (InplaceMerge 0 0 n, reverse a)]).
Proof.
  intros Hlen Hrev Hx Hy Hc n.
  assert (∀ i u v, a !! i = Some u → a !! S i = Some v → compare u v = false)
    as Hadj.
  { apply Sorted_reverse in Hrev. rewrite reverse_involutive in Hrev.
    rewrite Sorted_lookup in Hrev. intros i u v Hu Hv.
    apply (Hrev i u v Hu Hv). }
  set (limit := unstable_limit_of (distance 0 n)).
  assert (initial_state compare a 0 n = Some (State (a, []) limit n 0 1))
    as Hinit.
  { unfold initial_state, is_sorted_until.
    destruct (decide (0 = n)); [lia|].
    replace (n - 0) with (S (n - 1)) by lia. simpl.
    destruct (decide (1 = n)); [lia|].
    by rewrite Hy, Hx; simpl; rewrite Hc. }
  assert (∃ cur, decreasing_range compare n a n 0 1 = Some (cur, n))
    as [cur Hscan].
  { destruct (scan_run_total (λ cur nxt, compare cur nxt) n a n 0 1)
      as [[cur nxt] Hscan]; try done; try lia.
    destruct (scan_run_Some _ _ _ _ _ _ _ _ Hscan eq_refl)
      as (-> & _ & _ & _ & Hmax).
    exists cur. unfold decreasing_range. rewrite Hscan.
    destruct (decide (S cur = n)) as [->|Hne]; [done|].
    destruct (Hmax Hne) as (u & v & Hu & Hv & Huv).
    by rewrite (Hadj _ _ _ Hu Hv) in Huv. }
  assert (run_phase compare pdqsort true 0 n (State (a, []) limit n 0 1) =
    Some (State (do_inplace_merge compare 0 0 n (do_reverse 0 n (a, [])))
            limit n cur n)) as Hrun.
  { unfold run_phase. simpl. rewrite Hscan. simpl. unfold dispatch. simpl.
    rewrite (proj2 (Z.gtb_lt _ _)), Nat.eqb_refl; [done|].
    apply unstable_limit_of_lt. unfold distance. lia. }
  unfold vergesort. fold n. rewrite (proj2 (Z.ltb_ge _ _))
    by (unfold distance; lia).
  rewrite Hinit. simpl.
  rewrite (vergesort_loop_first compare pdqsort n n _ _
             ltac:(unfold n; lia) Hrun eq_refl). simpl.
  unfold finish. simpl. rewrite Nat.eqb_refl. simpl.
  unfold do_inplace_merge, do_reverse, exec.
  cbn [fst snd app]. subst n. rewrite splice_full.
  unfold inplace_merge. rewrite take_0, slice_empty, merge_nil_l.
  rewrite <- (length_reverse a) at 1 2.
  by rewrite slice_full, drop_all, (right_id_L [] (++)).
Qed.

(** C3, as amended: on a sorted range of at least 80 elements (whose
    threshold fits an [int]) the forward scan finds no inversion and
    [vergesort] leaves the range as it was, but it does not return at
    that point: it takes the last element as a short run, sub-sorts
    that one-element range and merges it with the rest. *)
Theorem vergesort_sorted_input `{!StrictWeakOrder compare} a :
  (∀ l, pdqsort compare l ≡ₚ l) → 80 ≤ length a →
  (Z.of_nat (length a) / Z.log2 (Z.of_nat (length a)) < 2 ^ 31)%Z →
  Sorted R a →
  let n := length a in
  is_sorted_until compare a 0 n = Some n ∧
  vergesort a =
    Some (a, [(Pdqsort (n - 1) n, a); (InplaceMerge 0 (n - 1) n, a)]).
Proof.
  intros Hperm Hlen Hfit Hs n.
  assert (is_sorted_until compare a 0 n = Some n) as Hisu
    by (apply is_sorted_until_sorted; [done|lia]).
  split; [done|].
  set (limit := unstable_limit_of (distance 0 n)).
  assert (1 ≤ limit)%Z as Hlimit.
  { unfold limit, distance. change (Z.of_nat 0) with 0%Z.
    rewrite Z.sub_0_r. apply unstable_limit_of_fits; [lia|done]. }
  assert (initial_state compare a 0 n = Some (State (a, []) limit n (n - 1) n))
    as Hinit.
  { unfold initial_state. rewrite Hisu. simpl.
    by replace (n - 1 + 1) with n by lia. }
  assert (run_phase compare pdqsort true 0 n (State (a, []) limit n (n - 1) n)
          = Some (State (a, []) limit (n - 1) (n - 1) n)) as Hrun.
  { unfold run_phase, decreasing_range. simpl. rewrite scan_run_at_end.
    simpl. unfold dispatch. simpl.
    rewrite Z.gtb_ltb, (proj2 (Z.ltb_ge _ _)) by (unfold distance; lia).
    by rewrite Nat.eqb_refl. }
  unfold vergesort. fold n. rewrite (proj2 (Z.ltb_ge _ _))
    by (unfold distance; lia).
  rewrite Hinit. simpl.
  rewrite (vergesort_loop_first compare pdqsort n n _ _
             ltac:(unfold n; lia) Hrun eq_refl). simpl.
  unfold finish. simpl. destruct (Nat.eqb_spec (n - 1) n); [lia|]. simpl.
  unfold do_inplace_merge, do_pdqsort, exec. cbn [fst snd app].
  assert (splice (n - 1) n (pdqsort compare) a = a) as ->.
  { apply splice_id; [lia|]. apply pdqsort_short; [done|].
    rewrite slice_length; lia. }
  assert (inplace_merge compare 0 (n - 1) n a = a) as ->; [|done].
  unfold inplace_merge. subst n. rewrite take_0, drop_all.
  rewrite merge_sorted_app, <- slice_split by
    (rewrite <- ?slice_split by lia; rewrite ?slice_full; done || lia).
  by rewrite slice_full, (right_id_L [] (++)).
Qed.
End correctness.

(** * Concrete runs *)

(** Calling [vergesort] on a sorted range of 80 elements sub-sorts the
    last element and merges it: the call does not end with the scan. *)
Lemma sorted_input_counterexample :
  Sorted (ordered Nat.ltb) (seq 0 80) ∧
  is_sorted_until Nat.ltb (seq 0 80) 0 80 = Some 80 ∧
  snd <$> vergesort Nat.ltb insertion_sort (seq 0 80) =
    Some [(Pdqsort 79 80, seq 0 80); (InplaceMerge 0 79 80, seq 0 80)].
Proof.
  split_and!; [|by vm_compute..].
  by apply (bool_decide_unpack _).
Qed.

(** At 80 elements the threshold of the code is 13, while
    [size / log2(size) * 0.9] is below 13 whether [log2(80)] is read as
    the integer 6 or as any larger value. *)
Lemma threshold_counterexample :
  unstable_limit_of 80 = 13%Z ∧
  ∀ l : Q, (6 <= l)%Q → (spec_unstable_limit 80 l < inject_Z 13)%Q.
Proof.
  split; [done|]. intros l Hl. unfold spec_unstable_limit.
  assert (0 < l)%Q as Hpos by lra.
  assert (inject_Z 80 / l * (9 # 10) == 72 / l)%Q as ->.
  { field. intros Hz. rewrite Hz in Hpos. by apply Qlt_irrefl in Hpos. }
  apply Qlt_shift_div_r; [done|].
  change (inject_Z 13) with (13 # 1)%Q. lra.
Qed.

(** On an empty and on a one-element range [vergesort] calls the
    sub-sort. *)
Lemma empty_singleton_counterexample :
  vergesort Nat.ltb insertion_sort [] = Some ([], [(Pdqsort 0 0, [])]) ∧
  vergesort Nat.ltb insertion_sort [7] = Some ([7], [(Pdqsort 0 1, [7])]).
Proof. by vm_compute. Qed.

(** On [tied_descending], a reverse-sorted range of 80 elements,
    [vergesort] reverses nothing and calls the sub-sort. *)
Lemma tied_descending_counterexample :
  length tied_descending = 80 ∧
  Sorted (ordered Nat.ltb) (reverse tied_descending) ∧
  calls_of <$> (snd <$> vergesort Nat.ltb insertion_sort tied_descending) =
    Some [Pdqsort 69 80; InplaceMerge 0 69 80].
Proof.
  split_and!; [done| |by vm_compute].
  by apply (bool_decide_unpack _).
Qed.

Lemma vergesort_sorted_witness :
  ∃ m, vergesort Nat.ltb insertion_sort pipe_organ = Some m ∧
    length m.1 = length pipe_organ ∧
    ∀ i x y, m.1 !! i = Some x → m.1 !! S i = Some y → Nat.ltb y x = false.
Proof. exact (vergesort_sorted Nat.ltb insertion_sort pipe_organ). Defined.

Lemma vergesort_Permutation_witness :
  ∃ m, vergesort Nat.ltb insertion_sort pipe_organ = Some m ∧
    m.1 ≡ₚ pipe_organ.
Proof.
  apply (vergesort_Permutation Nat.ltb insertion_sort pipe_organ).
  apply sub_sort_Permutation.
Defined.

Lemma vergesort_sorted_input_witness :
  is_sorted_until Nat.ltb (seq 0 100) 0 (length (seq 0 100)) =
    Some (length (seq 0 100)) ∧
  vergesort Nat.ltb insertion_sort (seq 0 100) =
    Some (seq 0 100,
          [(Pdqsort (length (seq 0 100) - 1) (length (seq 0 100)), seq 0 100);
           (InplaceMerge 0 (length (seq 0 100) - 1) (length (seq 0 100)),
            seq 0 100)]).
Proof.
  apply (vergesort_sorted_input Nat.ltb insertion_sort (seq 0 100)).
  - apply sub_sort_Permutation.
  - vm_compute. lia.
  - by vm_compute.
  - by apply (bool_decide_unpack _).
Defined.

Lemma unstable_limit_constant_witness :
  (80 ≤ Z.of_nat (length (seq 0 80)))%Z ∧
  unstable_limit ascending_entry =
    to_int (Z.of_nat (length (seq 0 80)) / Z.log2 (Z.of_nat (length (seq 0 80)))) ∧
  ((Z.of_nat (length (seq 0 80)) / Z.log2 (Z.of_nat (length (seq 0 80)))
    < 2 ^ 31)%Z →
   unstable_limit ascending_entry =
     (Z.of_nat (length (seq 0 80)) / Z.log2 (Z.of_nat (length (seq 0 80))))%Z).
Proof.
  apply (unstable_limit_constant Nat.ltb insertion_sort (seq 0 80) true
           ascending_entry).
  apply detection_first; [by vm_compute|reflexivity].
Defined.

Lemma vergesort_empty_singleton_witness :
  ∃ t, vergesort Nat.ltb insertion_sort [7] = Some ([7], t) ∧
    calls_of t = [Pdqsort 0 (length [7])].
Proof.
  apply (vergesort_empty_singleton Nat.ltb insertion_sort [7]).
  - apply sub_sort_Permutation.
  - simpl. lia.
Defined.

Lemma vergesort_below_cutoff_witness :
  let a := [5; 4; 3; 2; 1; 6; 7; 8; 9; 10] in
  vergesort Nat.ltb insertion_sort a =
    Some (do_pdqsort Nat.ltb insertion_sort 0 (length a) (a, [])) ∧
  (do_pdqsort Nat.ltb insertion_sort 0 (length a) (a, [])).1 =
    insertion_sort Nat.ltb a ∧
  calls_of (do_pdqsort Nat.ltb insertion_sort 0 (length a) (a, [])).2 =
    [Pdqsort 0 (length a)].
Proof.
  apply (vergesort_below_cutoff Nat.ltb insertion_sort
           [5; 4; 3; 2; 1; 6; 7; 8; 9; 10]).
  simpl. lia.
Defined.

Lemma vergesort_descending_input_witness :
  vergesort Nat.ltb insertion_sort (reverse (seq 0 100)) =
    Some (reverse (reverse (seq 0 100)),
          [(Reverse 0 (length (reverse (seq 0 100))), reverse (seq 0 100));
           (InplaceMerge 0 0 (length (reverse (seq 0 100))),
            reverse (reverse (seq 0 100)))]).
Proof.
  apply (vergesort_descending_input Nat.ltb insertion_sort
           (reverse (seq 0 100)) 99 98).
  - vm_compute. lia.
  - by apply (bool_decide_unpack _).
  - reflexivity.
  - reflexivity.
  - reflexivity.
Defined.

Lemma inplace_merge3_correct_witness :
  let a := [9; 1; 4; 7; 2; 5; 0; 3; 6; 8; 0] in
  let r := inplace_merge3 Nat.ltb 1 4 6 10 a in
  Sorted (ordered Nat.ltb) (slice 1 10 r.1) ∧
  r.1 ≡ₚ a ∧ slice 1 10 r.1 ≡ₚ slice 1 10 a ∧
  take 1 r.1 = take 1 a ∧ drop 10 r.1 = drop 10 a ∧
  calls_of r.2 =
    if (distance 1 4 <? distance 6 10)%Z then
      [InplaceMerge 1 4 6; InplaceMerge 1 6 10]
    else
      [InplaceMerge 4 6 10; InplaceMerge 1 4 10].
Proof.
  apply (inplace_merge3_correct Nat.ltb [9; 1; 4; 7; 2; 5; 0; 3; 6; 8; 0]
           1 4 6 10); try (simpl; lia);
    by apply (bool_decide_unpack _).
Defined.

Lemma pending_batch_discipline_witness :
  calls_of <$> (snd <$> vergesort Nat.ltb insertion_sort mixed_runs) =
    Some [Pdqsort 29 37; Reverse 37 66; InplaceMerge3 0 29 37 66;
          InplaceMerge 0 66 96; Pdqsort 96 100; InplaceMerge 0 96 100] ∧
  (∀ descending s s',
     detection_point Nat.ltb insertion_sort mixed_runs descending s →
     run_phase Nat.ltb insertion_sort descending 0 (length mixed_runs) s
       = Some s' →
     let bu := begin_unstable s in
     let begin_rng := current s in
     let r := (memory s).1 in
     (bu = length mixed_runs ∨ bu < begin_rng) ∧
     if (distance begin_rng (next s') >? unstable_limit s)%Z then
       begin_unstable s' = length mixed_runs ∧
       calls_of (memory s').2 =
         calls_of (memory s).2 ++
         (if decide (bu = length mixed_runs) then []
          else [Pdqsort bu begin_rng]) ++
         (if descending then [Reverse begin_rng (next s')] else []) ++
         [if decide (bu = length mixed_runs)
          then InplaceMerge 0 begin_rng (next s')
          else InplaceMerge3 0 bu begin_rng (next s')] ∧
       (let batch :=
          if decide (bu = length mixed_runs) then r
          else splice bu begin_rng (insertion_sort Nat.ltb) r in
        let run :=
          if descending then splice begin_rng (next s') reverse batch
          else batch in
        (memory s').1 =
          if decide (bu = length mixed_runs)
          then inplace_merge Nat.ltb 0 begin_rng (next s') run
          else (inplace_merge3 Nat.ltb 0 bu begin_rng (next s') run).1) ∧
       (memory s').1 ≡ₚ r ∧
       Sorted (ordered Nat.ltb) (slice 0 (next s') (memory s').1)
     else
       memory s' = memory s ∧
       begin_unstable s' =
         if decide (bu = length mixed_runs) then begin_rng else bu) ∧
  (∀ m, 80 ≤ length mixed_runs →
     vergesort Nat.ltb insertion_sort mixed_runs = Some m →
     ∃ s', loop_exit Nat.ltb insertion_sort mixed_runs s' ∧
       m.1 ≡ₚ mixed_runs ∧ Sorted (ordered Nat.ltb) m.1 ∧
       calls_of m.2 =
         calls_of (memory s').2 ++
         (if decide (begin_unstable s' = length mixed_runs) then []
          else [Pdqsort (begin_unstable s') (length mixed_runs);
                InplaceMerge 0 (begin_unstable s') (length mixed_runs)]) ∧
       m.1 =
         if decide (begin_unstable s' = length mixed_runs) then (memory s').1
         else inplace_merge Nat.ltb 0 (begin_unstable s') (length mixed_runs)
                (splice (begin_unstable s') (length mixed_runs)
                   (insertion_sort Nat.ltb) (memory s').1)).
Proof.
  split; [by vm_compute|].
  exact (pending_batch_discipline Nat.ltb insertion_sort mixed_runs).
Defined.

Lemma sorted_prefix_invariant_witness :
  (∀ descending s,
     detection_point Nat.ltb insertion_sort pipe_organ descending s →
     Sorted (ordered Nat.ltb)
       (slice 0 (sorted_end (length pipe_organ) (current s) s) (memory s).1)) ∧
  (∀ m, vergesort Nat.ltb insertion_sort pipe_organ = Some m →
     Forall (call_pre Nat.ltb) m.2).
Proof. exact (sorted_prefix_invariant Nat.ltb insertion_sort pipe_organ). Defined.

(** * Further properties of the code *)

(** ** is_sorted_until *)

Section is_sorted_until_facts.
Context {A : Type} (compare : A → A → bool).
Implicit Types a : list A.

Local Abbreviation R := (ordered compare).

(** On a valid range [is_sorted_until] returns, and what it returns is
    the end of the longest sorted prefix of the range. *)
Lemma is_sorted_until_spec a first last :
  first ≤ last → last ≤ length a →
  ∃ p, is_sorted_until compare a first last = Some p ∧
    first ≤ p ∧ p ≤ last ∧ (first < last → first < p) ∧
    Sorted R (slice first p a) ∧
    (∀ q, q ≤ last → Sorted R (slice first q a) → q ≤ p).
Proof.
  intros Hfl Hl. destruct (decide (first = last)) as [->|Hne].
  { exists last. unfold is_sorted_until. rewrite decide_True by done.
    split_and!; try done; try lia. rewrite slice_empty. constructor. }
  destruct (is_sorted_until_total compare a first last) as [p Hp]; [done..|].
  destruct (is_sorted_until_Some _ _ _ _ _ Hp ltac:(lia))
    as (? & ? & Hs & Hmax).
  exists p. split_and!; try done; try lia.
  intros q Hq Hsq. destruct (decide (q ≤ p)) as [|Hlt]; [done|].
  destruct (Hmax ltac:(lia)) as (x & y & Hx & Hy & Hc).
  rewrite Sorted_slice in Hsq.
  specialize (Hsq (p - 1) x y ltac:(lia) ltac:(lia) Hx).
  replace (S (p - 1)) with p in Hsq by lia.
  unfold ordered in Hsq. by rewrite Hsq in Hc.
Qed.

(** X1: on a valid range [is_sorted_until] returns a position [p] of the
    range, past [first] when the range is not empty, such that
    [first, p) is sorted and no longer prefix of the range is. *)
Theorem is_sorted_until_longest_prefix a first last :
  first ≤ last → last ≤ length a →
  ∃ p, is_sorted_until compare a first last = Some p ∧
    first ≤ p ∧ p ≤ last ∧ (first < last → first < p) ∧
    Sorted R (slice first p a) ∧
    (∀ q, q ≤ last → Sorted R (slice first q a) → q ≤ p).
Proof. apply is_sorted_until_spec. Qed.

(** X2: [is_sorted_until] returns [last] exactly when the range is
    sorted. *)
Theorem is_sorted_until_last_iff a first last :
  first ≤ last → last ≤ length a →
  is_sorted_until compare a first last = Some last ↔
  Sorted R (slice first last a).
Proof.
  intros Hfl Hl.
  destruct (is_sorted_until_spec a first last Hfl Hl)
    as (p & Hp & ? & ? & _ & Hs & Hmax).
  rewrite Hp. split.
  - by intros [= ->].
  - intros Hsl. f_equal. pose proof (Hmax last ltac:(lia) Hsl). lia.
Qed.

(** The position [is_sorted_until] returns is determined by a sorted
    prefix that cannot be extended. *)
Lemma is_sorted_until_unique a first last p :
  first < p → p ≤ last → last ≤ length a →
  Sorted R (slice first p a) →
  (p ≠ last → ∃ x y,
     a !! (p - 1) = Some x ∧ a !! p = Some y ∧ compare y x = true) →
  is_sorted_until compare a first last = Some p.
Proof.
  intros Hfp Hpl Hl Hs Hinv.
  destruct (is_sorted_until_spec a first last) as
    (q & Hq & ? & ? & _ & Hsq & Hmax); [lia|done|].
  rewrite Hq. f_equal. pose proof (Hmax p Hpl Hs).
  destruct (decide (q ≤ p)) as [|Hlt]; [lia|].
  destruct (Hinv ltac:(lia)) as (x & y & Hx & Hy & Hc).
  rewrite Sorted_slice in Hsq.
  specialize (Hsq (p - 1) x y ltac:(lia) ltac:(lia) Hx).
  replace (S (p - 1)) with p in Hsq by lia.
  unfold ordered in Hsq. by rewrite Hsq in Hc.
Qed.
End is_sorted_until_facts.

(** ** The two orders of inplace_merge3 *)

Section merge_order.
Context {A : Type} (compare : A → A → bool) `{!StrictWeakOrder compare}.
Implicit Types (a l : list A).

Local Abbreviation R := (ordered compare).
Local Abbreviation merge := (merge compare).

Lemma compare_before_ordered x y z :
  compare z x = true → compare y x = false → compare z y = true.
Proof.
  intros Hzx Hyx. destruct (compare z y) eqn:Hzy; [done|].
  assert (R x z) as Hxz by (by trans y).
  unfold ordered in Hxz. congruence.
Qed.

(** The stable merge is associative. *)
Lemma merge_assoc l1 l2 l3 :
  merge (merge l1 l2) l3 = merge l1 (merge l2 l3).
Proof.
  revert l2 l3. induction l1 as [|x l1 IH1]; intros l2.
  { intros l3. by rewrite !merge_nil_l. }
  induction l2 as [|y l2 IH2]; intros l3.
  { by rewrite merge_nil_r, merge_nil_l. }
  induction l3 as [|z l3 IH3].
  { by rewrite !merge_nil_r. }
  rewrite (merge_cons _ x y), (merge_cons _ y z).
  destruct (compare y x) eqn:Hyx, (compare z y) eqn:Hzy;
    rewrite !merge_cons, ?Hyx, ?Hzy.
  - rewrite (swo_trans z y x Hzy Hyx).
    rewrite <- IH3. by rewrite (merge_cons _ x y), Hyx.
  - by rewrite IH2.
  - destruct (compare z x) eqn:Hzx.
    + rewrite <- IH3. by rewrite (merge_cons _ x y), Hyx.
    + rewrite IH1. by rewrite (merge_cons _ y z), Hzy.
  - destruct (compare z x) eqn:Hzx.
    + by rewrite (compare_before_ordered x y z Hzx Hyx) in Hzy.
    + rewrite IH1. by rewrite (merge_cons _ y z), Hzy.
Qed.

Section three_ranges.
Variables (a : list A) (first middle1 middle2 last : nat).
Hypothesis H1 : first ≤ middle1.
Hypothesis H2 : middle1 ≤ middle2.
Hypothesis H3 : middle2 ≤ last.
Hypothesis Hl : last ≤ length a.

Lemma inplace_merge3_left_first :
  inplace_merge compare first middle2 last
    (inplace_merge compare first middle1 middle2 a) =
  take first a ++
    merge (merge (slice first middle1 a) (slice middle1 middle2 a))
      (slice middle2 last a) ++ drop last a.
Proof using H1 H2 H3 Hl.
  unfold inplace_merge at 1.
  rewrite inplace_merge_take, inplace_merge_inside by lia.
  rewrite inplace_merge_after by lia.
  rewrite !drop_slice, inplace_merge_length, inplace_merge_after by lia.
  done.
Qed.

Lemma inplace_merge3_right_first :
  inplace_merge compare first middle1 last
    (inplace_merge compare middle1 middle2 last a) =
  take first a ++
    merge (slice first middle1 a)
      (merge (slice middle1 middle2 a) (slice middle2 last a))
      ++ drop last a.
Proof using H1 H2 H3 Hl.
  unfold inplace_merge at 1.
  rewrite inplace_merge_inside, inplace_merge_before by lia.
  rewrite inplace_merge_drop by lia.
  rewrite <- !slice_0, inplace_merge_before by lia.
  done.
Qed.

(** X3: on three sorted parts, as [std::inplace_merge] requires, the
    two orders in which [inplace_merge3] can do its merges give the same
    range, the stable merge of the three parts: the choice between them
    changes the work, not the result. *)
Theorem inplace_merge3_order_irrelevant :
  Sorted R (slice first middle1 a) →
  Sorted R (slice middle1 middle2 a) →
  Sorted R (slice middle2 last a) →
  inplace_merge compare first middle2 last
    (inplace_merge compare first middle1 middle2 a) =
  inplace_merge compare first middle1 last
    (inplace_merge compare middle1 middle2 last a) ∧
  (inplace_merge3 compare first middle1 middle2 last a).1 =
    take first a ++
      merge (slice first middle1 a)
        (merge (slice middle1 middle2 a) (slice middle2 last a))
      ++ drop last a.
Proof using All.
  intros _ _ _.
  rewrite inplace_merge3_range, inplace_merge3_left_first,
    inplace_merge3_right_first, merge_assoc.
  split; [done|]. by case_match.
Qed.

(** X4: on a range that is sorted as a whole [inplace_merge3] changes
    nothing. *)
Theorem inplace_merge3_sorted_range :
  Sorted R (slice first last a) →
  (inplace_merge3 compare first middle1 middle2 last a).1 = a.
Proof using All.
  intros Hs.
  rewrite inplace_merge3_range, inplace_merge3_left_first,
    inplace_merge3_right_first, merge_assoc.
  assert (merge (slice first middle1 a)
            (merge (slice middle1 middle2 a) (slice middle2 last a)) =
          slice first last a) as Hm.
  { assert (Sorted R (slice middle1 last a)) as Hs'
      by (eapply Sorted_slice_sub; [| |done]; lia).
    rewrite (merge_sorted_app compare (slice middle1 middle2 a))
      by (by rewrite <- (slice_split a middle1 middle2 last) by lia).
    rewrite <- (slice_split a middle1 middle2 last) by lia.
    rewrite (merge_sorted_app compare)
      by (by rewrite <- (slice_split a first middle1 last) by lia).
    by rewrite <- (slice_split a first middle1 last) by lia. }
  rewrite Hm. case_match; symmetry; apply slice_decompose; lia.
Qed.
End three_ranges.
End merge_order.

(** ** vergesort on a sorted prefix followed by one descending run *)

Section single_tail.
Context {A : Type} (compare : A → A → bool).
Context (pdqsort : (A → A → bool) → list A → list A).
Implicit Types (a P T : list A).

Local Abbreviation R := (ordered compare).
Local Abbreviation vergesort := (vergesort compare pdqsort).

Lemma splice_app (f : list A → list A) P D :
  splice (length P) (length (P ++ D)) f (P ++ D) = P ++ f D.
Proof.
  unfold splice, slice. rewrite take_app_length, drop_all, drop_app_length.
  rewrite length_app, Nat.add_comm, Nat.add_sub, take_ge by done.
  by rewrite (right_id_L [] (++)).
Qed.

Lemma inplace_merge_app P D n :
  n = length (P ++ D) →
  inplace_merge compare 0 (length P) n (P ++ D) = merge compare P D.
Proof.
  intros ->. unfold inplace_merge.
  rewrite take_0, drop_all, slice_0, take_app_length.
  unfold slice. rewrite drop_app_length, length_app, Nat.add_comm, Nat.add_sub.
  by rewrite take_ge, (right_id_L [] (++)) by done.
Qed.

(** The run of the main loop on such an input: one scan to the end of
    the range, one dispatch, and the final step. *)
Lemma vergesort_tail_run P x T :
  80 ≤ length (P ++ x :: T) →
  Sorted R (P ++ [x]) →
  Sorted (flip R) (x :: T) →
  (∀ y, head T = Some y → compare y x = true) →
  let a := P ++ x :: T in
  let b := length P in
  let n := length a in
  vergesort a = Some (
    if (distance b n >? unstable_limit_of (distance 0 n))%Z then
      do_inplace_merge compare 0 b n (do_reverse b n (a, []))
    else
      do_inplace_merge compare 0 b n
        (do_pdqsort compare pdqsort b n (a, []))).
Proof.
  intros Hlen HsP HsT Hhead a b n.
  assert (80 ≤ n) as Hlen' by done.
  assert (n = b + S (length T)) as Hn
    by (unfold n, a, b; rewrite length_app; simpl; lia).
  assert (∀ i u v, b ≤ i → a !! i = Some u → a !! S i = Some v →
            compare u v = false) as Hadj.
  { intros i u v Hi Hu Hv. rewrite Sorted_lookup in HsT.
    apply (HsT (i - b) u v).
    - unfold a in Hu. by rewrite lookup_app_r in Hu by done.
    - unfold a in Hv. rewrite lookup_app_r in Hv by (unfold b in Hi; lia).
      by replace (S (i - b)) with (S i - length P) by (unfold b in *; lia). }
  set (limit := unstable_limit_of (distance 0 n)).
  assert (is_sorted_until compare a 0 n = Some (b + 1)) as Hisu.
  { apply is_sorted_until_unique; [lia|lia|done| |].
    - rewrite slice_0. unfold a, b.
      rewrite take_app_ge, Nat.add_comm, Nat.add_sub by lia. done.
    - intros Hne. destruct T as [|y T]; [simpl in Hn; lia|].
      exists x, y. rewrite Nat.add_sub. unfold a, b. split_and!.
      + by rewrite lookup_app_r, Nat.sub_diag by done.
      + rewrite lookup_app_r by lia.
        by replace (length P + 1 - length P) with 1 by lia.
      + by apply Hhead. }
  assert (initial_state compare a 0 n = Some (State (a, []) limit n b (b + 1)))
    as Hinit.
  { unfold initial_state. rewrite Hisu. simpl. by rewrite Nat.add_sub. }
  assert (∃ cur, decreasing_range compare n a n b (b + 1) = Some (cur, n))
    as [cur Hscan].
  { destruct (scan_run_total (λ cur nxt, compare cur nxt) n a n b (b + 1))
      as [[cur nxt] Hscan]; try done; try lia.
    destruct (scan_run_Some _ _ _ _ _ _ _ _ Hscan ltac:(lia))
      as (-> & ? & _ & _ & Hmax).
    exists cur. unfold decreasing_range. rewrite Hscan.
    destruct (decide (S cur = n)) as [->|Hne]; [done|].
    destruct (Hmax Hne) as (u & v & Hu & Hv & Huv).
    rewrite (Hadj cur u v) in Huv; done || lia. }
  assert (run_phase compare pdqsort true 0 n (State (a, []) limit n b (b + 1)) =
    Some (dispatch compare pdqsort true 0 n b (State (a, []) limit n cur n)))
    as Hrun.
  { unfold run_phase. simpl. by rewrite Hscan. }
  unfold vergesort. fold a n. rewrite (proj2 (Z.ltb_ge _ _))
    by (unfold distance; lia).
  rewrite Hinit. simpl.
  rewrite (vergesort_loop_first compare pdqsort n n _ _ ltac:(lia) Hrun)
    by by rewrite dispatch_next.
  simpl. unfold finish, dispatch. simpl. fold limit.
  destruct (_ >? _)%Z; rewrite Nat.eqb_refl; simpl.
  - by rewrite Nat.eqb_refl.
  - by destruct (Nat.eqb_spec b n); [lia|].
Qed.

(** The range and the calls of that run. *)
Lemma vergesort_tail_calls P x T :
  (∀ l, pdqsort compare l ≡ₚ l) →
  80 ≤ length (P ++ x :: T) →
  Sorted R (P ++ [x]) →
  Sorted (flip R) (x :: T) →
  (∀ y, head T = Some y → compare y x = true) →
  let b := length P in
  let n := length (P ++ x :: T) in
  let long := (distance b n >? unstable_limit_of (distance 0 n))%Z in
  ∃ t, vergesort (P ++ x :: T) =
         Some (merge compare P
                 (if long then reverse (x :: T)
                  else pdqsort compare (x :: T)), t) ∧
       calls_of t =
         [if long then Reverse b n else Pdqsort b n; InplaceMerge 0 b n].
Proof.
  intros Hperm Hlen HsP HsT Hhead b n long.
  rewrite (vergesort_tail_run P x T Hlen HsP HsT Hhead). fold b n long.
  unfold do_inplace_merge, do_reverse, do_pdqsort, exec. cbn [fst snd app].
  unfold b, n. rewrite !splice_app.
  rewrite (inplace_merge_app P (reverse (x :: T)))
    by (by rewrite !length_app, length_reverse).
  rewrite (inplace_merge_app P (pdqsort compare (x :: T)))
    by (by rewrite !length_app, Hperm).
  destruct long; by eexists.
Qed.

(** X5: for a strict weak order and a sub-sort that meets its
    contract, on a range made of a sorted part [P] and a non-increasing
    run [x :: T] that starts at the last element of the sorted prefix,
    [vergesort] makes exactly two calls: it reverses the run when the
    run is longer than the threshold and sub-sorts it otherwise, then
    merges it with [P]. *)
Theorem vergesort_sorted_then_descending `{!StrictWeakOrder compare}
    `{!SubSort compare pdqsort} P x T :
  80 ≤ length (P ++ x :: T) →
  Sorted R (P ++ [x]) →
  Sorted (flip R) (x :: T) →
  (∀ y, head T = Some y → compare y x = true) →
  let b := length P in
  let n := length (P ++ x :: T) in
  let long := (distance b n >? unstable_limit_of (distance 0 n))%Z in
  ∃ t, vergesort (P ++ x :: T) =
         Some (merge compare P
                 (if long then reverse (x :: T)
                  else pdqsort compare (x :: T)), t) ∧
       calls_of t =
         [if long then Reverse b n else Pdqsort b n; InplaceMerge 0 b n].
Proof. apply vergesort_tail_calls, sub_sort_Permutation. Qed.

(** [vergesort] returns a sorted permutation of its input. *)
Lemma vergesort_returns_sorted `{!StrictWeakOrder compare}
    `{!SubSort compare pdqsort} a :
  ∃ m, vergesort a = Some m ∧ m.1 ≡ₚ a ∧ Sorted R m.1.
Proof.
  destruct (vergesort_permutes compare pdqsort a sub_sort_Permutation)
    as (m & Hm & Hp).
  exists m. split_and!; [done..|].
  destruct (Z.lt_ge_cases (distance 0 (length a)) 80) as [Hlt|Hge].
  - rewrite vergesort_small in Hm by done. simplify_eq. simpl.
    apply sub_sort_Sorted.
  - destruct (vergesort_large compare pdqsort a sub_sort_Permutation Hge)
      as (s' & Hexit & Hrun).
    rewrite Hrun in Hm. simplify_eq.
    eapply finish_order; [done..| |].
    + eapply loop_exit_shape; [apply sub_sort_Permutation|done].
    + by eapply loop_exit_order.
Qed.

(** From the cutoff on a sorted range is left as it is, whatever the
    threshold. *)
Lemma vergesort_sorted_unchanged `{!StrictWeakOrder compare} a :
  (∀ l, pdqsort compare l ≡ₚ l) → 80 ≤ length a → Sorted R a →
  ∃ t, vergesort a = Some (a, t).
Proof.
  intros Hperm Hlen Hs. destruct a as [|x P _] using rev_ind; [simpl in *; lia|].
  destruct (vergesort_tail_calls P x [])
    as (t & Ht & _); try done.
  { by repeat constructor. }
  exists t. rewrite Ht. do 2 f_equal.
  assert (pdqsort compare [x] = [x]) as ->
    by (by apply pdqsort_short).
  change (reverse [x]) with [x]. rewrite Tauto.if_same.
  by apply merge_sorted_app.
Qed.

(** X6: from the cutoff on, sorting the output of [vergesort] again
    leaves it as it is, also when equivalent elements can be told
    apart. *)
Theorem vergesort_idempotent `{!StrictWeakOrder compare}
    `{!SubSort compare pdqsort} a :
  80 ≤ length a →
  ∃ m t, vergesort a = Some m ∧ vergesort m.1 = Some (m.1, t).
Proof.
  intros Hlen. destruct (vergesort_returns_sorted a) as (m & Hm & Hp & Hs).
  destruct (vergesort_sorted_unchanged m.1 sub_sort_Permutation) as [t Ht];
    [by rewrite Hp|done|].
  by exists m, t.
Qed.

(** For a total order the result is the only sorted permutation of the
    input. *)
Lemma vergesort_unique `{!StrictWeakOrder compare}
    `{!SubSort compare pdqsort} a :
  (∀ x y, compare x y = false → compare y x = false → x = y) →
  ∃ m, vergesort a = Some m ∧ m.1 = pdqsort compare a ∧
    ∀ l, Sorted R l → l ≡ₚ a → l = m.1.
Proof.
  intros Hanti. destruct (vergesort_returns_sorted a) as (m & Hm & Hp & Hs).
  assert (AntiSymm (=) R) by (intros x y ??; by apply Hanti).
  assert (∀ l, Sorted R l → l ≡ₚ a → l = m.1) as Huniq.
  { intros l Hl Hpl. apply (Sorted_unique R); [done..|]. by rewrite Hp. }
  exists m. split_and!; [done| |done].
  symmetry. apply Huniq; [apply sub_sort_Sorted|apply sub_sort_Permutation].
Qed.

(** X7: when equivalent elements are equal (a total order), the range
    [vergesort] produces is the only sorted permutation of its input: it
    is what the sub-sort alone produces on the whole range, for every
    length. *)
Theorem vergesort_total_order `{!StrictWeakOrder compare}
    `{!SubSort compare pdqsort} a :
  (∀ x y, compare x y = false → compare y x = false → x = y) →
  ∃ m, vergesort a = Some m ∧ m.1 = pdqsort compare a ∧
    ∀ l, Sorted R l → l ≡ₚ a → l = m.1.
Proof. apply vergesort_unique. Qed.
End single_tail.

(** ** No element is sub-sorted or reversed twice *)

Section ranges_of_calls.
Context {A : Type} (compare : A → A → bool).
Context (pdqsort : (A → A → bool) → list A → list A).
Hypothesis pdqsort_Permutation : ∀ l, pdqsort compare l ≡ₚ l.
Implicit Types (a : list A) (s : state (A:=A)).




End ranges_of_calls.

(** ** The overload without a comparator *)

Global Instance less_int_StrictWeakOrder : StrictWeakOrder less_int.
Proof.
  unfold less_int. split.
  - intros x. apply Z.ltb_irrefl.
  - intros x y z ?%Z.ltb_lt ?%Z.ltb_lt. apply Z.ltb_lt. lia.
  - intros x y z ?%Z.ltb_ge ?%Z.ltb_ge ?%Z.ltb_ge ?%Z.ltb_ge.
    split; apply Z.ltb_ge; lia.
Qed.

Lemma ordered_less_int x y : ordered less_int x y ↔ (x ≤ y)%Z.
Proof. unfold ordered, less_int. apply Z.ltb_ge. Qed.

Lemma less_int_antisym x y :
  less_int x y = false → less_int y x = false → x = y.
Proof. unfold less_int. intros ?%Z.ltb_ge ?%Z.ltb_ge. lia. Qed.

Lemma Sorted_less_int l : Sorted (ordered less_int) l ↔ Sorted Z.le l.
Proof.
  rewrite !Sorted_lookup. by setoid_rewrite ordered_less_int.
Qed.

Section less.
Context (pdqsort : (Z → Z → bool) → list Z → list Z).
Context `{!SubSort less_int pdqsort}.

(** X9: the overload without a comparator puts a range of [int]s in
    non-decreasing order, and its result is the only non-decreasing
    permutation of the input: it depends on the elements of the input,
    not on their arrangement nor on the sub-sort. *)
Theorem vergesort_less_sorts (a : list Z) :
  ∃ m, vergesort_less pdqsort a = Some m ∧ m.1 ≡ₚ a ∧
    (∀ i x y, m.1 !! i = Some x → m.1 !! S i = Some y → (x ≤ y)%Z) ∧
    (∀ l, l ≡ₚ a → Sorted Z.le l → l = m.1).
Proof.
  destruct (vergesort_returns_sorted less_int pdqsort a) as (m & Hm & Hp & Hs).
  destruct (vergesort_unique less_int pdqsort a less_int_antisym)
    as (m' & Hm' & _ & Huniq).
  unfold vergesort_less. rewrite Hm in Hm'. simplify_eq.
  exists m'. split_and!; [done..| |].
  - apply (Sorted_lookup Z.le). by apply Sorted_less_int.
  - intros l Hl Hsl. apply Huniq; [by apply Sorted_less_int|done].
Qed.
End less.

(** ** The input generators of the benchmark *)

Section loops.
Implicit Types (body : Z → list Z → list Z) (v l : list Z).

Lemma to_size_small z : (0 ≤ z < 2 ^ 64)%Z → to_size z = z.
Proof. intros. unfold to_size. by apply Z.mod_small. Qed.

(** A loop that counts up to a [size_t] bound runs its body on the
    values from the start to the bound, in order. *)
Lemma for_int_up fuel hi body i v :
  (0 ≤ i < 2 ^ 63)%Z → (hi < 2 ^ 63)%Z → (hi - i < Z.of_nat fuel)%Z →
  for_int fuel (λ i, (to_size i <? hi)%Z) Z.succ body i v =
    Some (foldl (λ v i, body i v) v (seqZ i (hi - i))).
Proof.
  revert i v. induction fuel as [|fuel IH]; intros i v Hi Hhi Hfuel; simpl;
    rewrite to_size_small by lia;
    destruct (Z.ltb_spec i hi); try lia; try (by rewrite seqZ_nil by lia).
  rewrite IH by lia. rewrite (seqZ_cons i) by lia. simpl.
  by replace (hi - Z.succ i)%Z with (Z.pred (hi - i)) by lia.
Qed.

(** A loop that counts down to 0 runs its body on the values from the
    start down to 0. *)
Lemma for_int_down fuel body (k : nat) v :
  k < fuel →
  for_int fuel (λ i, (0 <=? i)%Z) Z.pred body (Z.of_nat k - 1) v =
    Some (foldl (λ v i, body i v) v (reverse (seqZ 0 (Z.of_nat k)))).
Proof.
  revert fuel v. induction k as [|k IH]; intros fuel v Hfuel.
  { destruct fuel; [lia|]. done. }
  destruct fuel as [|fuel]; [lia|]. simpl for_int.
  destruct (Z.leb_spec 0 (Z.of_nat (S k) - 1)); [|lia].
  replace (Z.pred (Z.of_nat (S k) - 1)) with (Z.of_nat k - 1)%Z by lia.
  rewrite IH by lia. rewrite seqZ_S, reverse_snoc. simpl.
  by replace (Z.of_nat (S k) - 1)%Z with (0 + Z.of_nat k)%Z by lia.
Qed.

Lemma foldl_push_back (f g : Z → Z) l v :
  (∀ i, i ∈ l → f i = g i) →
  foldl (λ v i, push_back (f i) v) v l = v ++ (g <$> l).
Proof.
  revert v. induction l as [|i l IH]; intros v Hfg; simpl.
  { by rewrite (right_id_L [] (++)). }
  rewrite IH by (intros; apply Hfg; by right).
  unfold push_back. rewrite Hfg by left. by rewrite <- (assoc_L (++)).
Qed.

Lemma foldl_push_back_if (P : Z → Prop) `{!∀ i, Decision (P i)}
    (Q : Z → Prop) `{!∀ i, Decision (Q i)} l v :
  (∀ i, i ∈ l → P i ↔ Q i) →
  foldl (λ v i, if decide (P i) then push_back i v else v) v l =
    v ++ filter Q l.
Proof.
  revert v. induction l as [|i l IH]; intros v HPQ; simpl.
  { by rewrite filter_nil, (right_id_L [] (++)). }
  rewrite IH by (intros; apply HPQ; by right).
  rewrite filter_cons. pose proof (HPQ i ltac:(left)).
  unfold push_back. repeat case_decide; try tauto.
  by rewrite <- (assoc_L (++)).
Qed.

Lemma fmap_const_replicate (c : Z) l : (λ _, c) <$> l = replicate (length l) c.
Proof. induction l; simpl; by f_equal. Qed.

Lemma fmap_sub_seqZ (c : Z) (k : nat) :
  (λ i, c - i)%Z <$> seqZ (c - Z.of_nat k) (Z.of_nat k) =
    reverse (seqZ 1 (Z.of_nat k)).
Proof.
  induction k as [|k IH]; [done|].
  rewrite seqZ_cons, seqZ_S, reverse_snoc by lia. simpl. f_equal; [lia|].
  rewrite <- IH. f_equal. f_equal; lia.
Qed.

Lemma filter_Forall_id (P : Z → Prop) `{!∀ i, Decision (P i)} l :
  Forall P l → filter P l = l.
Proof.
  induction 1 as [|i l Hi _ IH]; [done|].
  by rewrite filter_cons_True, IH by done.
Qed.

(** The counters from 0 below [n] without [h]. *)
Lemma filter_ne_seqZ (h n : Z) :
  (0 ≤ h < n)%Z →
  filter (λ i, i ≠ h) (seqZ 0 n) = seqZ 0 h ++ seqZ (h + 1) (n - h - 1).
Proof.
  intros Hh. replace n with (h + (1 + (n - h - 1)))%Z at 1 by lia.
  rewrite !seqZ_app by lia. rewrite !filter_app.
  rewrite (seqZ_cons _ 1), (seqZ_nil _ (Z.pred 1)) by lia.
  rewrite filter_cons_False, filter_nil by (intros ?; lia). simpl.
  rewrite !filter_Forall_id; [by rewrite Z.add_0_l|..];
    apply Forall_seqZ; lia.
Qed.
End loops.

Section closed_forms.
Variable size : nat.
Hypothesis Hfit : (Z.of_nat size < 2 ^ 31)%Z.

Lemma to_int_fits z : (0 ≤ z ≤ Z.of_nat size)%Z → to_int z = z.
Proof using Hfit. intros. apply to_int_small. lia. Qed.

Lemma all_equal_int_eq : all_equal_int size = Some (replicate size 0%Z).
Proof using Hfit.
  unfold all_equal_int, loop_fuel. rewrite for_int_up by lia.
  rewrite (foldl_push_back (λ _, 0%Z) (λ _, 0%Z)) by done.
  rewrite fmap_const_replicate, length_seqZ, Z.sub_0_r, Nat2Z.id. done.
Qed.

Lemma ascending_int_eq : ascending_int size = Some (seqZ 0 (Z.of_nat size)).
Proof using Hfit.
  unfold ascending_int, loop_fuel. rewrite for_int_up by lia.
  rewrite (foldl_push_back id id) by done.
  by rewrite list_fmap_id, Z.sub_0_r.
Qed.

Lemma descending_int_eq :
  descending_int size = Some (reverse (seqZ 0 (Z.of_nat size))).
Proof using Hfit.
  unfold descending_int, loop_fuel.
  assert (to_int (to_size (Z.of_nat size - 1)) = (Z.of_nat size - 1)%Z) as ->.
  { destruct size as [|k]; [done|].
    rewrite to_size_small, to_int_small; lia. }
  rewrite for_int_down by lia.
  rewrite (foldl_push_back id id) by done. by rewrite list_fmap_id.
Qed.

Lemma pipe_organ_int_eq :
  pipe_organ_int size =
    Some (seqZ 0 (Z.of_nat (size / 2)) ++
          reverse (seqZ 1 (Z.of_nat (size - size / 2)))).
Proof using Hfit.
  unfold pipe_organ_int, loop_fuel.
  assert (Z.of_nat size / 2 = Z.of_nat (size / 2))%Z as Hh
    by (by rewrite Nat2Z.inj_div).
  assert (size / 2 ≤ size) by (apply Nat.Div0.div_le_upper_bound; lia).
  rewrite for_int_up by lia. cbn [mbind option_bind].
  rewrite to_int_fits by lia. rewrite for_int_up by lia.
  rewrite (foldl_push_back id id) by done.
  rewrite (foldl_push_back _ (λ i, Z.of_nat size - i)%Z).
  - rewrite list_fmap_id, Z.sub_0_r, Hh. cbn [app]. f_equal. f_equal.
    rewrite <- (fmap_sub_seqZ (Z.of_nat size) (size - size / 2)).
    f_equal. f_equal; lia.
  - intros i [??]%elem_of_seqZ.
    rewrite (to_size_small i), to_size_small, to_int_fits; lia.
Qed.

Lemma push_front_int_eq :
  push_front_int size = Some (seqZ 1 (Z.of_nat size - 1) ++ [0%Z]).
Proof using Hfit.
  unfold push_front_int, loop_fuel. rewrite for_int_up by lia.
  cbn [mbind option_bind].
  rewrite (foldl_push_back id id) by done. by rewrite list_fmap_id.
Qed.

Lemma push_middle_int_eq :
  push_middle_int size =
    Some (filter (λ i, i ≠ Z.of_nat (size / 2)) (seqZ 0 (Z.of_nat size)) ++
          [Z.of_nat (size / 2)]).
Proof using Hfit.
  unfold push_middle_int, loop_fuel.
  assert (Z.of_nat size / 2 = Z.of_nat (size / 2))%Z as Hh
    by (by rewrite Nat2Z.inj_div).
  assert (size / 2 ≤ size) by (apply Nat.Div0.div_le_upper_bound; lia).
  rewrite for_int_up by lia. cbn [mbind option_bind].
  rewrite (foldl_push_back_if _ (λ i, i ≠ Z.of_nat (size / 2))).
  - rewrite to_int_fits by lia. by rewrite Z.sub_0_r, Hh.
  - intros i [??]%elem_of_seqZ. by rewrite to_size_small, Hh by lia.
Qed.
End closed_forms.

Lemma Sorted_app_ordered {A : Type} (R : relation A) (l1 l2 : list A) :
  Sorted R l1 → Sorted R l2 →
  (∀ x y, last l1 = Some x → head l2 = Some y → R x y) →
  Sorted R (l1 ++ l2).
Proof.
  induction 1 as [|x l1 Hs IH Hhd]; intros Hl2 Hlast; [done|].
  simpl. constructor.
  - apply IH; [done|]. intros u v Hu. apply Hlast.
    rewrite last_cons. by rewrite Hu.
  - destruct Hhd as [|y l1]; simpl; [|by constructor].
    destruct l2 as [|y l2]; constructor. by apply Hlast.
Qed.

Lemma Sorted_seqZ m n : Sorted (ordered less_int) (seqZ m n).
Proof.
  apply Sorted_lookup. intros i x y [-> ?]%lookup_seqZ [-> ?]%lookup_seqZ.
  apply ordered_less_int. lia.
Qed.

(** Below [2 ^ 31] elements the threshold is at least 2 and at most a
    sixth of the length. *)
Lemma unstable_limit_of_bounds n :
  (80 ≤ n < 2 ^ 31)%Z →
  (2 ≤ unstable_limit_of n)%Z ∧ (6 * unstable_limit_of n ≤ n)%Z.
Proof.
  intros Hn. pose proof (quotient_bounds n ltac:(lia)).
  destruct (unstable_limit_of_fits n) as [-> _]; [lia..|].
  pose proof (log2_ge_6 n ltac:(lia)) as Hk. unfold log2 in *.
  destruct (Z.log2_spec n ltac:(lia)) as [Hpow _].
  pose proof (Z.pow_gt_lin_r 2 (Z.log2 n - 2) ltac:(lia) ltac:(lia)) as Hlin.
  replace (Z.log2 n) with (Z.log2 n - 2 + 2)%Z in Hpow at 1 by lia.
  rewrite Z.pow_add_r in Hpow by lia. split.
  - apply Z.div_le_lower_bound; lia.
  - etrans; [apply Z.mul_le_mono_nonneg_l; [lia|];
             apply (Z.div_le_compat_l n 6); lia|].
    apply Z.mul_div_le. lia.
Qed.

Section generated_inputs.
Context (pdqsort : (Z → Z → bool) → list Z → list Z).
Context `{!SubSort less_int pdqsort}.
Variable size : nat.
Hypothesis Hfit : (Z.of_nat size < 2 ^ 31)%Z.

Local Abbreviation R := (ordered less_int).
Local Abbreviation vergesort_less := (vergesort_less pdqsort).

(** From the cutoff on, a sorted range is left as it is by the two calls
    that sub-sort and merge its last element. *)
Lemma vergesort_less_sorted_calls (a : list Z) :
  length a = size → 80 ≤ size → Sorted R a →
  ∃ t, vergesort_less a = Some (a, t) ∧
       calls_of t = [Pdqsort (size - 1) size; InplaceMerge 0 (size - 1) size].
Proof using Hfit SubSort0.
  intros Hlen Hsize Hs. destruct a as [|x P _] using rev_ind; [simpl in *; lia|].
  destruct (vergesort_tail_calls less_int pdqsort P x [] sub_sort_Permutation)
    as (t & Ht & Hcalls); try done; try lia.
  { by repeat constructor. }
  exists t. rewrite Hlen in *. rewrite length_app in Hlen. simpl in Hlen.
  replace (length P) with (size - 1) in * by lia.
  destruct (unstable_limit_of_bounds (distance 0 size)) as [Hlim _].
  { unfold distance. lia. }
  rewrite Z.gtb_ltb, (proj2 (Z.ltb_ge _ _)) in Ht, Hcalls
    by (unfold distance in *; lia).
  split; [|done]. unfold vergesort_less. rewrite Ht. do 2 f_equal.
  rewrite (pdqsort_short less_int pdqsort [x] sub_sort_Permutation)
    by (simpl; lia).
  by apply merge_sorted_app; [apply _|].
Qed.

(** X10: [ascending_int] returns the integers from 0 to [size - 1] in
    this order; for at least 80 elements [vergesort] changes nothing on
    them: it sub-sorts the last element alone and merges it. *)
Theorem ascending_int_unchanged :
  80 ≤ size →
  ∃ v t, ascending_int size = Some v ∧ length v = size ∧
    (∀ i, i < size → v !! i = Some (Z.of_nat i)) ∧
    v = seqZ 0 (Z.of_nat size) ∧
    vergesort_less v = Some (v, t) ∧
    calls_of t = [Pdqsort (size - 1) size; InplaceMerge 0 (size - 1) size].
Proof using Hfit SubSort0.
  intros Hsize. rewrite ascending_int_eq by done.
  assert (length (seqZ 0 (Z.of_nat size)) = size) as Hlen
    by (rewrite length_seqZ; lia).
  destruct (vergesort_less_sorted_calls (seqZ 0 (Z.of_nat size)))
    as (t & Ht & Hcalls); [done..|apply Sorted_seqZ|].
  exists (seqZ 0 (Z.of_nat size)), t. split_and!; [done..| |done|done|done].
  intros i Hi. rewrite lookup_seqZ. split; lia.
Qed.

(** X11: on the output of [all_equal_int] [vergesort] changes nothing,
    whatever the size. *)
Theorem all_equal_int_unchanged :
  ∃ v t, all_equal_int size = Some v ∧ v = replicate size 0%Z ∧
    vergesort_less v = Some (v, t).
Proof using Hfit SubSort0.
  rewrite all_equal_int_eq by done.
  cut (∃ t, vergesort_less (replicate size 0%Z) = Some (replicate size 0%Z, t)).
  { intros [t Ht]. by exists (replicate size 0%Z), t. }
  destruct (decide (80 ≤ size)) as [Hsize|Hsize].
  - destruct (vergesort_less_sorted_calls (replicate size 0%Z))
      as (t & Ht & _); [by rewrite length_replicate|done| |by eauto].
    apply Sorted_lookup.
    intros i x y [-> _]%lookup_replicate [-> _]%lookup_replicate.
    by apply ordered_less_int.
  - unfold vergesort_less. rewrite vergesort_small
      by (unfold distance; rewrite length_replicate; lia).
    rewrite <- (replicate_Permutation size 0%Z (pdqsort less_int _))
      by (symmetry; apply sub_sort_Permutation).
    by eauto.
Qed.

(** X12: on the output of [descending_int] for at least 80 elements
    [vergesort] produces the output of [ascending_int] by one reversal
    of the whole range, followed by a merge with the empty range before
    it; it calls no sub-sort. *)
Theorem descending_int_reversed :
  80 ≤ size →
  ∃ v w t, descending_int size = Some v ∧ ascending_int size = Some w ∧
    vergesort_less v = Some (w, t) ∧
    calls_of t = [Reverse 0 size; InplaceMerge 0 0 size].
Proof using Hfit SubSort0.
  intros Hsize. rewrite descending_int_eq, ascending_int_eq by done.
  destruct size as [|k] eqn:Hk; [lia|]. rewrite <- Hk in *.
  assert (reverse (seqZ 0 (Z.of_nat size)) =
          Z.of_nat k :: reverse (seqZ 0 (Z.of_nat k))) as Hv
    by (by rewrite Hk, seqZ_S, reverse_snoc).
  assert (length (reverse (seqZ 0 (Z.of_nat size))) = size) as Hlen
    by (rewrite length_reverse, length_seqZ; lia).
  destruct (vergesort_tail_calls less_int pdqsort []
              (Z.of_nat k) (reverse (seqZ 0 (Z.of_nat k))) sub_sort_Permutation)
    as (t & Ht & Hcalls); simpl app in *; rewrite <- ?Hv, ?Hlen in *.
  - done.
  - by repeat constructor.
  - apply Sorted_reverse, Sorted_seqZ.
  - intros y Hy%head_Some_elem_of. rewrite elem_of_reverse, elem_of_seqZ in Hy.
    unfold less_int. apply Z.ltb_lt. lia.
  - rewrite (proj2 (Z.gtb_lt _ _)) in Ht, Hcalls
      by (apply unstable_limit_of_lt; unfold distance; cbn [length]; lia).
    eexists _, _, t. split_and!; [done..| |done].
    unfold vergesort_less. rewrite Ht. do 2 f_equal.
    by rewrite merge_nil_l, reverse_involutive.
Qed.

(** X13: on the output of [pipe_organ_int] for at least 80 elements
    [vergesort] makes two calls: it reverses the descending half and
    merges it with the ascending half; it calls no sub-sort. *)
Theorem pipe_organ_int_two_calls :
  80 ≤ size →
  let h := size / 2 in
  ∃ v t, pipe_organ_int size = Some v ∧ length v = size ∧
    vergesort_less v =
      Some (merge less_int (seqZ 0 (Z.of_nat h))
              (seqZ 1 (Z.of_nat (size - h))), t) ∧
    calls_of t = [Reverse h size; InplaceMerge 0 h size].
Proof using Hfit SubSort0.
  intros Hsize h. rewrite pipe_organ_int_eq by done. fold h.
  assert (h ≤ size / 2 ∧ size / 2 ≤ h ∧ 2 * h ≤ size ∧ size < 2 * h + 2)
    as (_ & _ & Hh1 & Hh2).
  { unfold h. pose proof (Nat.div_mod_eq size 2).
    pose proof (Nat.mod_upper_bound size 2). lia. }
  destruct (size - h) as [|k] eqn:Hk; [lia|].
  assert (reverse (seqZ 1 (Z.of_nat (S k))) =
          (1 + Z.of_nat k)%Z :: reverse (seqZ 1 (Z.of_nat k))) as Hv
    by (by rewrite seqZ_S, reverse_snoc).
  assert (length (seqZ 0 (Z.of_nat h) ++ reverse (seqZ 1 (Z.of_nat (S k))))
          = size) as Hlen
    by (rewrite length_app, length_reverse, !length_seqZ; lia).
  assert (length (seqZ 0 (Z.of_nat h)) = h) as Hb
    by (rewrite length_seqZ; lia).
  destruct (vergesort_tail_calls less_int pdqsort (seqZ 0 (Z.of_nat h))
              (1 + Z.of_nat k)%Z (reverse (seqZ 1 (Z.of_nat k)))
              sub_sort_Permutation)
    as (t & Ht & Hcalls); rewrite <- ?Hv, ?Hlen, ?Hb in *.
  - done.
  - apply Sorted_app_ordered; [apply Sorted_seqZ|by repeat constructor|].
    intros x y Hx%last_Some_elem_of [= <-]. rewrite elem_of_seqZ in Hx.
    apply ordered_less_int. lia.
  - apply Sorted_reverse, Sorted_seqZ.
  - intros y Hy%head_Some_elem_of. rewrite elem_of_reverse, elem_of_seqZ in Hy.
    unfold less_int. apply Z.ltb_lt. lia.
  - destruct (unstable_limit_of_bounds (distance 0 size)) as [Hlim Hsix].
    { unfold distance. lia. }
    rewrite (proj2 (Z.gtb_lt _ _)) in Ht, Hcalls
      by (unfold distance in *; lia).
    eexists _, t. split_and!; [done..| |done].
    unfold vergesort_less. rewrite Ht. do 2 f_equal.
    by rewrite reverse_involutive.
Qed.
(** A sorted range followed by one element out of place, whose values
    are those of [seqZ 0 size]: the last two elements are sub-sorted and
    merged. *)
Lemma vergesort_less_short_tail (P : list Z) (x y : Z) :
  length (P ++ [x; y]) = size → 80 ≤ size →
  Sorted R (P ++ [x]) → (y < x)%Z →
  P ++ [x; y] ≡ₚ seqZ 0 (Z.of_nat size) →
  ∃ t, vergesort_less (P ++ [x; y]) = Some (seqZ 0 (Z.of_nat size), t) ∧
       calls_of t = [Pdqsort (size - 2) size; InplaceMerge 0 (size - 2) size].
Proof using Hfit SubSort0.
  intros Hlen Hsize Hs Hyx Hp.
  destruct (vergesort_tail_calls less_int pdqsort P x [y] sub_sort_Permutation)
    as (t & Ht & Hcalls); rewrite ?Hlen in *.
  - done.
  - done.
  - repeat constructor. apply ordered_less_int. lia.
  - intros ? [= <-]. unfold less_int. apply Z.ltb_lt. lia.
  - rewrite length_app in Hlen. simpl in Hlen.
    replace (length P) with (size - 2) in * by lia.
    destruct (unstable_limit_of_bounds (distance 0 size)) as [Hlim _].
    { unfold distance. lia. }
    rewrite Z.gtb_ltb, (proj2 (Z.ltb_ge _ _)) in Ht, Hcalls
      by (unfold distance in *; lia).
    destruct (vergesort_unique less_int pdqsort (P ++ [x; y]) less_int_antisym)
      as (m & Hm & _ & Huniq).
    rewrite Ht in Hm. injection Hm as <-. cbn [fst] in Huniq.
    rewrite <- (Huniq (seqZ 0 (Z.of_nat size))) in Ht;
      [by exists t|apply Sorted_seqZ|done].
Qed.

(** X14: on the output of [push_front_int] for at least 80 elements
    [vergesort] produces the output of [ascending_int]; the leading
    ascending run is short of one element, so the last two elements are
    sub-sorted and merged with the rest. *)
Theorem push_front_int_sorted :
  80 ≤ size →
  ∃ v w t, push_front_int size = Some v ∧ ascending_int size = Some w ∧
    vergesort_less v = Some (w, t) ∧
    calls_of t = [Pdqsort (size - 2) size; InplaceMerge 0 (size - 2) size].
Proof using Hfit SubSort0.
  intros Hsize. rewrite push_front_int_eq, ascending_int_eq by done.
  assert (∃ k, size = S (S k)) as [k Hk] by (exists (size - 2); lia).
  assert (seqZ 1 (Z.of_nat size - 1) ++ [0%Z] =
          seqZ 1 (Z.of_nat k) ++ [(1 + Z.of_nat k)%Z; 0%Z]) as Hv.
  { replace (Z.of_nat size - 1)%Z with (Z.of_nat (S k)) by lia.
    by rewrite seqZ_S, <- (assoc_L (++)). }
  destruct (vergesort_less_short_tail (seqZ 1 (Z.of_nat k))
              (1 + Z.of_nat k)%Z 0%Z) as (t & Ht & Hcalls).
  - rewrite length_app, length_seqZ. simpl. lia.
  - done.
  - rewrite <- seqZ_S. apply Sorted_seqZ.
  - lia.
  - rewrite <- Hv. rewrite (seqZ_cons 0 (Z.of_nat size)) by lia.
    by rewrite <- Permutation_cons_append.
  - rewrite <- Hv in Ht. by eexists _, _, t.
Qed.

(** X15: on the output of [push_middle_int] for at least 80 elements
    [vergesort] produces the output of [ascending_int]; the value
    pushed last is out of place, so the last two elements are sub-sorted
    and merged with the rest. *)
Theorem push_middle_int_sorted :
  80 ≤ size →
  ∃ v w t, push_middle_int size = Some v ∧ ascending_int size = Some w ∧
    vergesort_less v = Some (w, t) ∧
    calls_of t = [Pdqsort (size - 2) size; InplaceMerge 0 (size - 2) size].
Proof using Hfit SubSort0.
  intros Hsize. rewrite push_middle_int_eq, ascending_int_eq by done.
  set (h := size / 2).
  assert (2 * h ≤ size ∧ size < 2 * h + 2) as [Hh1 Hh2].
  { unfold h. pose proof (Nat.div_mod_eq size 2).
    pose proof (Nat.mod_upper_bound size 2). lia. }
  rewrite filter_ne_seqZ by lia.
  destruct (size - h - 1) as [|k] eqn:Hk; [lia|].
  replace (Z.of_nat size - Z.of_nat h - 1)%Z with (Z.of_nat (S k)) by lia.
  assert ((seqZ 0 (Z.of_nat h) ++ seqZ (Z.of_nat h + 1) (Z.of_nat (S k))) ++
            [Z.of_nat h] =
          (seqZ 0 (Z.of_nat h) ++ seqZ (Z.of_nat h + 1) (Z.of_nat k)) ++
            [(Z.of_nat h + 1 + Z.of_nat k)%Z; Z.of_nat h]) as Hv.
  { by rewrite seqZ_S, <- !(assoc_L (++)). }
  destruct (vergesort_less_short_tail
              (seqZ 0 (Z.of_nat h) ++ seqZ (Z.of_nat h + 1) (Z.of_nat k))
              (Z.of_nat h + 1 + Z.of_nat k)%Z (Z.of_nat h))
    as (t & Ht & Hcalls).
  - rewrite !length_app, !length_seqZ. simpl. lia.
  - done.
  - rewrite <- (assoc_L (++)), <- seqZ_S.
    apply Sorted_app_ordered; [apply Sorted_seqZ..|].
    intros x y Hx%last_Some_elem_of Hy%head_Some_elem_of.
    rewrite elem_of_seqZ in Hx, Hy. apply ordered_less_int. lia.
  - lia.
  - rewrite <- Hv.
    replace (Z.of_nat size) with
      (Z.of_nat h + (1 + Z.of_nat (S k)))%Z at 1 by lia.
    rewrite !seqZ_app by lia. rewrite Z.add_0_l.
    change (seqZ (Z.of_nat h) 1) with [Z.of_nat h].
    rewrite <- (assoc_L (++)). apply Permutation_app_head.
    by rewrite <- Permutation_cons_append.
  - rewrite <- Hv in Ht. by eexists _, _, t.
Qed.

(** X16: [push_front_int] and [push_middle_int] push one element after
    their loop, so they return [size] elements, except for [size = 0]
    where they return the one element 0. *)
Theorem push_int_length :
  ∃ v w, push_front_int size = Some v ∧ push_middle_int size = Some w ∧
    length v = size `max` 1 ∧ length w = size `max` 1 ∧
    (size = 0 → v = [0%Z] ∧ w = [0%Z]).
Proof using Hfit.
  rewrite push_front_int_eq, push_middle_int_eq by done.
  eexists _, _. split_and!; [done..| | |].
  - rewrite length_app, length_seqZ. cbn [length]. lia.
  - destruct (decide (size = 0)) as [->|Hne]; [done|].
    assert (size / 2 < size) by (apply Nat.div_lt; lia).
    rewrite filter_ne_seqZ by lia.
    rewrite !length_app, !length_seqZ. cbn [length]. lia.
  - by intros ->.
Qed.
End generated_inputs.

(** X17: for a range of at least 80 and fewer than [2 ^ 31] elements the
    threshold of line 94 is the integer quotient itself, at least 2 and
    at most a sixth of the length: a run of one or two elements is never
    long, a run of more than a sixth of the range always is. *)
Theorem unstable_limit_range (n : Z) :
  (80 ≤ n < 2 ^ 31)%Z →
  unstable_limit_of n = (n / log2 n)%Z ∧
  (2 ≤ unstable_limit_of n)%Z ∧ (6 * unstable_limit_of n ≤ n)%Z.
Proof.
  intros Hn. pose proof (quotient_bounds n ltac:(lia)).
  split; [apply unstable_limit_of_fits; lia|].
  by apply unstable_limit_of_bounds.
Qed.

(** * The properties above on concrete inputs *)

Lemma is_sorted_until_longest_prefix_witness :
  ∃ p, is_sorted_until Nat.ltb [1; 3; 2; 4] 0 4 = Some p ∧
    0 ≤ p ∧ p ≤ 4 ∧ (0 < 4 → 0 < p) ∧
    Sorted (ordered Nat.ltb) (slice 0 p [1; 3; 2; 4]) ∧
    (∀ q, q ≤ 4 → Sorted (ordered Nat.ltb) (slice 0 q [1; 3; 2; 4]) → q ≤ p).
Proof.
  apply (is_sorted_until_longest_prefix Nat.ltb [1; 3; 2; 4] 0 4); simpl; lia.
Defined.

Lemma is_sorted_until_last_iff_witness :
  is_sorted_until Nat.ltb [5; 1; 2; 2; 0] 1 4 = Some 4 ↔
  Sorted (ordered Nat.ltb) (slice 1 4 [5; 1; 2; 2; 0]).
Proof.
  apply (is_sorted_until_last_iff Nat.ltb [5; 1; 2; 2; 0] 1 4); simpl; lia.
Defined.

Lemma inplace_merge3_order_irrelevant_witness :
  let a := [9; 1; 4; 7; 2; 5; 0; 3; 6; 8; 0] in
  inplace_merge Nat.ltb 1 6 10 (inplace_merge Nat.ltb 1 4 6 a) =
  inplace_merge Nat.ltb 1 4 10 (inplace_merge Nat.ltb 4 6 10 a) ∧
  (inplace_merge3 Nat.ltb 1 4 6 10 a).1 =
    take 1 a ++
      merge Nat.ltb (slice 1 4 a) (merge Nat.ltb (slice 4 6 a) (slice 6 10 a))
      ++ drop 10 a.
Proof.
  apply (inplace_merge3_order_irrelevant Nat.ltb
           [9; 1; 4; 7; 2; 5; 0; 3; 6; 8; 0] 1 4 6 10); try (simpl; lia);
    by apply (bool_decide_unpack _).
Defined.

Lemma inplace_merge3_sorted_range_witness :
  (inplace_merge3 Nat.ltb 1 3 5 7 [9; 1; 2; 2; 4; 5; 6; 0]).1 =
    [9; 1; 2; 2; 4; 5; 6; 0].
Proof.
  apply (inplace_merge3_sorted_range Nat.ltb [9; 1; 2; 2; 4; 5; 6; 0] 1 3 5 7);
    try (simpl; lia).
  by apply (bool_decide_unpack _).
Defined.

Lemma vergesort_sorted_then_descending_witness :
  let P := seq 0 50 in
  let x := 99 in
  let T := reverse (seq 50 49) in
  let b := length P in
  let n := length (P ++ x :: T) in
  let long := (distance b n >? unstable_limit_of (distance 0 n))%Z in
  ∃ t, vergesort Nat.ltb insertion_sort (P ++ x :: T) =
         Some (merge Nat.ltb P
                 (if long then reverse (x :: T)
                  else insertion_sort Nat.ltb (x :: T)), t) ∧
       calls_of t =
         [if long then Reverse b n else Pdqsort b n; InplaceMerge 0 b n].
Proof.
  apply (vergesort_sorted_then_descending Nat.ltb insertion_sort
           (seq 0 50) 99 (reverse (seq 50 49))).
  - vm_compute. lia.
  - by apply (bool_decide_unpack _).
  - apply (Sorted_reverse (ordered Nat.ltb) (seq 50 50)).
    by apply (bool_decide_unpack _).
  - by intros y [= <-].
Defined.

Lemma vergesort_idempotent_witness :
  ∃ m t, vergesort Nat.ltb insertion_sort pipe_organ = Some m ∧
    vergesort Nat.ltb insertion_sort m.1 = Some (m.1, t).
Proof.
  apply (vergesort_idempotent Nat.ltb insertion_sort pipe_organ).
  vm_compute. lia.
Defined.

Lemma vergesort_total_order_witness :
  ∃ m, vergesort Nat.ltb insertion_sort pipe_organ = Some m ∧
    m.1 = insertion_sort Nat.ltb pipe_organ ∧
    ∀ l, Sorted (ordered Nat.ltb) l → l ≡ₚ pipe_organ → l = m.1.
Proof.
  apply (vergesort_total_order Nat.ltb insertion_sort pipe_organ).
  intros x y ?%Nat.ltb_ge ?%Nat.ltb_ge. lia.
Defined.


Lemma vergesort_less_sorts_witness :
  ∃ m, vergesort_less insertion_sort [3; -1; 2; 3; 0]%Z = Some m ∧
    m.1 ≡ₚ [3; -1; 2; 3; 0]%Z ∧
    (∀ i x y, m.1 !! i = Some x → m.1 !! S i = Some y → (x ≤ y)%Z) ∧
    (∀ l, l ≡ₚ [3; -1; 2; 3; 0]%Z → Sorted Z.le l → l = m.1).
Proof. exact (vergesort_less_sorts insertion_sort [3; -1; 2; 3; 0]%Z). Defined.

Lemma ascending_int_unchanged_witness :
  ∃ v t, ascending_int 100 = Some v ∧ length v = 100 ∧
    (∀ i, i < 100 → v !! i = Some (Z.of_nat i)) ∧
    v = seqZ 0 (Z.of_nat 100) ∧
    vergesort_less insertion_sort v = Some (v, t) ∧
    calls_of t = [Pdqsort (100 - 1) 100; InplaceMerge 0 (100 - 1) 100].
Proof. apply (ascending_int_unchanged insertion_sort 100); [done|lia]. Defined.

Lemma all_equal_int_unchanged_witness :
  ∃ v t, all_equal_int 100 = Some v ∧ v = replicate 100 0%Z ∧
    vergesort_less insertion_sort v = Some (v, t).
Proof. by apply (all_equal_int_unchanged insertion_sort 100). Defined.

Lemma descending_int_reversed_witness :
  ∃ v w t, descending_int 100 = Some v ∧ ascending_int 100 = Some w ∧
    vergesort_less insertion_sort v = Some (w, t) ∧
    calls_of t = [Reverse 0 100; InplaceMerge 0 0 100].
Proof. apply (descending_int_reversed insertion_sort 100); [done|lia]. Defined.

Lemma pipe_organ_int_two_calls_witness :
  let h := 101 / 2 in
  ∃ v t, pipe_organ_int 101 = Some v ∧ length v = 101 ∧
    vergesort_less insertion_sort v =
      Some (merge less_int (seqZ 0 (Z.of_nat h))
              (seqZ 1 (Z.of_nat (101 - h))), t) ∧
    calls_of t = [Reverse h 101; InplaceMerge 0 h 101].
Proof. apply (pipe_organ_int_two_calls insertion_sort 101); [done|lia]. Defined.

Lemma push_front_int_sorted_witness :
  ∃ v w t, push_front_int 100 = Some v ∧ ascending_int 100 = Some w ∧
    vergesort_less insertion_sort v = Some (w, t) ∧
    calls_of t = [Pdqsort (100 - 2) 100; InplaceMerge 0 (100 - 2) 100].
Proof. apply (push_front_int_sorted insertion_sort 100); [done|lia]. Defined.

Lemma push_middle_int_sorted_witness :
  ∃ v w t, push_middle_int 100 = Some v ∧ ascending_int 100 = Some w ∧
    vergesort_less insertion_sort v = Some (w, t) ∧
    calls_of t = [Pdqsort (100 - 2) 100; InplaceMerge 0 (100 - 2) 100].
Proof. apply (push_middle_int_sorted insertion_sort 100); [done|lia]. Defined.

Lemma push_int_length_witness :
  ∃ v w, push_front_int 5 = Some v ∧ push_middle_int 5 = Some w ∧
    length v = 5 `max` 1 ∧ length w = 5 `max` 1 ∧
    (5 = 0 → v = [0%Z] ∧ w = [0%Z]).
Proof. by apply (push_int_length 5). Defined.

Lemma unstable_limit_range_witness :
  unstable_limit_of 1000000 = (1000000 / log2 1000000)%Z ∧
  (2 ≤ unstable_limit_of 1000000)%Z ∧
  (6 * unstable_limit_of 1000000 ≤ 1000000)%Z.
Proof. by apply (unstable_limit_range 1000000). Defined.
